(** * ABC notation editor: stream tokenizer and editor synchronisation

    A shallow embedding of [src/app/utils/abc-language.ts] (the CodeMirror
    stream tokenizer for ABC notation) and of the effects of
    [src/app/components/AbcEditor.tsx] (the React component that keeps a
    CodeMirror view in step with its host), with the properties the
    specification states about them. *)

From Stdlib Require Import Ascii String List Bool Arith Lia ZArith NArith.
Import ListNotations.

(* ================================================================== *)
(** * JavaScript strings *)
(* ================================================================== *)

(** A JavaScript string is a sequence of UTF-16 code units. *)
Definition char := N.
Definition jsString := list char.

Definition ch (a : ascii) : char := N_of_ascii a.

Definition LF : char := 10%N.
Definition CR : char := 13%N.
Definition dquote : char := 34%N.

(** Literals: [js] reads a Rocq string as a JavaScript string literal,
    with the escapes [\n], [\r], [\t] and [\\]. *)
Fixpoint js_chars (l : list ascii) : jsString :=
  match l with
  | [] => []
  | a :: r =>
      if Ascii.eqb a "\" then
        match r with
        | b :: r' =>
            if Ascii.eqb b "n" then LF :: js_chars r'
            else if Ascii.eqb b "r" then CR :: js_chars r'
            else if Ascii.eqb b "t" then 9%N :: js_chars r'
            else ch b :: js_chars r'
        | [] => [ch a]
        end
      else ch a :: js_chars r
  end.

Definition js (s : string) : jsString := js_chars (list_ascii_of_string s).

Definition in_range (lo hi : ascii) (c : char) : bool :=
  (ch lo <=? c)%N && (c <=? ch hi)%N.

Definition is_ch (a : ascii) (c : char) : bool := (c =? ch a)%N.

(** The character class [\s] of a JavaScript regular expression (white
    space and line terminators); [\u00a0] is already part of it. *)
Definition isSpace (c : char) : bool :=
  ((9 <=? c) && (c <=? 13) || (c =? 32) || (c =? 160) || (c =? 5760)
   || (8192 <=? c) && (c <=? 8202) || (c =? 8232) || (c =? 8233)
   || (c =? 8239) || (c =? 8287) || (c =? 12288) || (c =? 65279))%N.

(** [\d] *)
Definition isDigit (c : char) : bool := in_range "0" "9" c.

(** The length of the longest prefix of [l] whose characters satisfy [f]. *)
Fixpoint prefix_len (f : char -> bool) (l : jsString) : nat :=
  match l with
  | c :: r => if f c then S (prefix_len f r) else 0
  | [] => 0
  end.

(* ================================================================== *)
(** * StringStream (the part of CodeMirror's stream API the tokenizer uses) *)
(* ================================================================== *)

Record StringStream := { str : jsString; pos : nat }.

(** The text from the current position on: [this.string.slice(this.pos)]. *)
Definition remaining (s : StringStream) : jsString := skipn (pos s) (str s).

Definition advance (n : nat) (s : StringStream) : StringStream :=
  {| str := str s; pos := pos s + n |}.

(** [eol()]: [this.pos >= this.string.length] *)
Definition eol (s : StringStream) : bool := length (str s) <=? pos s.

(** [sol()]: [this.pos == 0] *)
Definition sol (s : StringStream) : bool := pos s =? 0.

(** [peek()]: the character at the position, [undefined] at the end. *)
Definition peek (s : StringStream) : option char := nth_error (str s) (pos s).

(** [next()]: step over one character unless at the end. *)
Definition next (s : StringStream) : StringStream :=
  if pos s <? length (str s) then advance 1 s else s.

(** [eatWhile(f)]: step over the characters that satisfy [f]. *)
Definition eatWhile (f : char -> bool) (s : StringStream) : StringStream :=
  advance (prefix_len f (remaining s)) s.

(** [eatSpace()]: step over white space; tells whether it moved. *)
Definition eatSpace (s : StringStream) : bool * StringStream :=
  let n := prefix_len isSpace (remaining s) in
  (0 <? n, advance n s).

(** [skipToEnd()]: [this.pos = this.string.length] *)
Definition skipToEnd (s : StringStream) : StringStream :=
  {| str := str s; pos := length (str s) |}.

(** A regular expression is given by the length of its match at the start
    of a text, if it has one there.  [stream.match(re)] searches the
    remaining text, answers [null] when the first match is not at index 0,
    and otherwise steps over the match; so only a match at the start
    counts, whether or not the expression is written with [^]. *)
Definition regex := jsString -> option nat.

Definition stream_match (re : regex) (s : StringStream) : option StringStream :=
  match re (remaining s) with
  | Some n => Some (advance n s)
  | None => None
  end.

(* ================================================================== *)
(** * The tokenizer of abc-language.ts *)
(* ================================================================== *)

(** [/^[A-Za-z]:/] *)
Definition re_header : regex := fun l =>
  match l with
  | c :: d :: _ =>
      if (in_range "A" "Z" c || in_range "a" "z" c) && is_ch ":" d
      then Some 2 else None
  | _ => None
  end.

(** [/^K:/] *)
Definition re_K : regex := fun l =>
  match l with
  | c :: d :: _ => if is_ch "K" c && is_ch ":" d then Some 2 else None
  | _ => None
  end.

(** [/[\|:\[\]]/] *)
Definition re_bar : regex := fun l =>
  match l with
  | c :: _ => if is_ch "|" c || is_ch ":" c || is_ch "[" c || is_ch "]" c
              then Some 1 else None
  | [] => None
  end.

Definition isOctave (c : char) : bool := is_ch "'" c || is_ch "," c.

(** [/[A-Ga-g][',]*/] *)
Definition re_note : regex := fun l =>
  match l with
  | c :: r => if in_range "A" "G" c || in_range "a" "g" c
              then Some (S (prefix_len isOctave r)) else None
  | [] => None
  end.

Definition isAccidental (c : char) : bool := is_ch "^" c || is_ch "=" c || is_ch "_" c.

(** [/[\^=_]{1,2}/] *)
Definition re_accidental : regex := fun l =>
  match l with
  | c :: r =>
      if isAccidental c then
        match r with
        | d :: _ => if isAccidental d then Some 2 else Some 1
        | [] => Some 1
        end
      else None
  | [] => None
  end.

(** [/\/?\d+/] *)
Definition re_duration : regex := fun l =>
  match l with
  | c :: r =>
      if is_ch "/" c then
        match prefix_len isDigit r with
        | 0 => None
        | S n => Some (S (S n))
        end
      else
        match prefix_len isDigit l with
        | 0 => None
        | S n => Some (S n)
        end
  | [] => None
  end.

(** [/[zxZ]/] *)
Definition re_rest : regex := fun l =>
  match l with
  | c :: _ => if is_ch "z" c || is_ch "x" c || is_ch "Z" c then Some 1 else None
  | [] => None
  end.

(** [/[\(\)-]/] *)
Definition re_slur : regex := fun l =>
  match l with
  | c :: _ => if is_ch "(" c || is_ch ")" c || is_ch "-" c then Some 1 else None
  | [] => None
  end.

(** The style names the tokenizer returns. *)
Module Tag.
Inductive t :=
| keyword | comment | operator | variableName | modifier
| number | atom | string | punctuation.
End Tag.

(** [abcHighlightStyle]: the class each style is drawn with. *)
Inductive HighlightClass :=
| cm_abc_header | cm_abc_note | cm_abc_duration | cm_abc_bar | cm_abc_comment
| cm_abc_chord | cm_abc_accidental | cm_abc_rest | cm_abc_slur.

Definition abcHighlightStyle (tag : Tag.t) : HighlightClass :=
  match tag with
  | Tag.keyword => cm_abc_header
  | Tag.variableName => cm_abc_note
  | Tag.number => cm_abc_duration
  | Tag.operator => cm_abc_bar
  | Tag.comment => cm_abc_comment
  | Tag.string => cm_abc_chord
  | Tag.modifier => cm_abc_accidental
  | Tag.atom => cm_abc_rest
  | Tag.punctuation => cm_abc_slur
  end.

Record State := { inHeader : bool }.

Definition startState : State := {| inHeader := true |}.

(** What one call of [token] yields: the returned style ([None] for
    [null]), the stream and the state as the call leaves them. *)
Definition Result := (option Tag.t * StringStream * State)%type.

Definition peek_is (a : ascii) (c : option char) : bool :=
  match c with
  | Some c => is_ch a c
  | None => false
  end.

Definition token (stream : StringStream) (state : State) : Result :=
  (* Skip whitespace *)
  let (ate, skipped) := eatSpace stream in
  if ate then (None, skipped, state) else
  let char := peek stream in
  (* Header fields *)
  match (if inHeader state && sol stream
         then stream_match re_header stream else None) with
  | Some s => (Some Tag.keyword, s, state)
  | None =>
  (* K: field marks end of header *)
  match stream_match re_K stream with
  | Some s => (Some Tag.keyword, s, {| inHeader := false |})
  | None =>
  (* Comments *)
  if peek_is "%" char then (Some Tag.comment, skipToEnd stream, state) else
  (* Bar lines *)
  match stream_match re_bar stream with
  | Some s => (Some Tag.operator, s, state)
  | None =>
  (* Note names *)
  match stream_match re_note stream with
  | Some s => (Some Tag.variableName, s, state)
  | None =>
  (* Accidentals *)
  match stream_match re_accidental stream with
  | Some s => (Some Tag.modifier, s, state)
  | None =>
  (* Note lengths *)
  match stream_match re_duration stream with
  | Some s => (Some Tag.number, s, state)
  | None =>
  (* Rest *)
  match stream_match re_rest stream with
  | Some s => (Some Tag.atom, s, state)
  | None =>
  (* Chord symbols in quotes *)
  if match char with Some c => (c =? dquote)%N | None => false end then
    (Some Tag.string,
     next (eatWhile (fun c => negb (c =? dquote)%N) (next stream)), state)
  else
  (* Slurs and ties *)
  match stream_match re_slur stream with
  | Some s => (Some Tag.punctuation, s, state)
  | None =>
  (* Default: consume character *)
  (None, next stream, state)
  end end end end end end end end.

(* ================================================================== *)
(** * The stream driver *)
(* ================================================================== *)

(** The host (CodeMirror's [StreamLanguage]) hands the tokenizer one line
    of the document at a time, in a fresh stream at position 0, keeps the
    state from line to line, and calls [token] until the line is exhausted
    or a token has started beyond column [MaxLineLength].
    [readToken] is its guard against a tokenizer that does not move: it
    calls [token] up to ten times until the position has grown, and gives
    up with an error ([None]) otherwise. *)
Fixpoint readToken_from (tries start : nat) (stream : StringStream)
    (state : State) : option Result :=
  match tries with
  | 0 => None
  | S tries' =>
      let '(style, stream', state') := token stream state in
      if start <? pos stream' then Some (style, stream', state')
      else readToken_from tries' start stream' state'
  end.

Definition readToken (stream : StringStream) (state : State) : option Result :=
  readToken_from 10 (pos stream) stream state.

(** One step of a scan: the span [start, stop) of the text it consumed, the
    style [token] returned for it and the scanner state it left. *)
Record Step := { start : nat; stop : nat; style : option Tag.t; after : State }.

(** The host gives up on the rest of a line once a token has started
    beyond this column: [const MaxLineLength = 10000]. *)
Definition MaxLineLength : nat := 100 * 100.

(** The loop over one stream,
    [while (!stream.eol()) { readToken(...); if (stream.start > MaxLineLength) break }],
    where [stream.start] is the position before the call.  The fuel bounds
    the number of steps; [None] is an error of [readToken] or fuel that ran
    out before the loop ended. *)
Fixpoint parseLoop (fuel : nat) (stream : StringStream) (state : State)
    : option (list Step * State) :=
  if eol stream then Some ([], state) else
  match fuel with
  | 0 => None
  | S fuel' =>
      match readToken stream state with
      | None => None
      | Some (sty, stream', state') =>
          let step := {| start := pos stream; stop := pos stream';
                         style := sty; after := state' |} in
          if MaxLineLength <? pos stream then Some ([step], state')
          else
            match parseLoop fuel' stream' state' with
            | None => None
            | Some (steps, final) => Some (step :: steps, final)
            end
      end
  end.

(** One line from its start, with as many steps allowed as the line has
    characters. *)
Definition parseLine (text : jsString) (state : State)
    : option (list Step * State) :=
  parseLoop (length text) {| str := text; pos := 0 |} state.

(** The lines of a document (separated by line feeds). *)
Fixpoint lines (text : jsString) : list jsString :=
  match text with
  | [] => [[]]
  | c :: r =>
      if (c =? LF)%N then [] :: lines r
      else match lines r with
           | l :: ls => (c :: l) :: ls
           | [] => [[c]]
           end
  end.

Definition shift (offset : nat) (s : Step) : Step :=
  {| start := offset + start s; stop := offset + stop s;
     style := style s; after := after s |}.

(** The lines of a document in turn; spans are document offsets. *)
Fixpoint parseLines (parsedPos : nat) (ls : list jsString) (state : State)
    : option (list Step * State) :=
  match ls with
  | [] => Some ([], state)
  | line :: rest =>
      match parseLine line state with
      | None => None
      | Some (steps, state') =>
          match parseLines (parsedPos + length line + 1) rest state' with
          | None => None
          | Some (more, final) => Some (map (shift parsedPos) steps ++ more, final)
          end
      end
  end.

Definition parseDocument (text : jsString) : option (list Step * State) :=
  parseLines 0 (lines text) startState.


(** The text of a span. *)
Definition slice (text : jsString) (from to : nat) : jsString :=
  firstn (to - from) (skipn from text).

Definition spanText (text : jsString) (s : Step) : jsString :=
  slice text (start s) (stop s).

(** The steps whose style is not [null] are the tokens the host draws. *)
Definition emitted (steps : list Step) : list Step :=
  filter (fun s => match style s with Some _ => true | None => false end) steps.

Definition render (text : jsString) (s : Step) : jsString * option Tag.t * bool :=
  (spanText text s, style s, inHeader (after s)).

Definition abcTune : jsString := js "X:1\nT:Title\nK:C\nABC|def".

(* ================================================================== *)
(** * What is stated about a scan *)
(* ================================================================== *)

(** The stream the call leaves. *)
Definition streamOf (r : Result) : StringStream := snd (fst r).
Definition styleOf (r : Result) : option Tag.t := fst (fst r).
Definition stateOf (r : Result) : State := snd r.

(** [moved s s']: the same text, and a position strictly further on that
    does not pass the end. *)
Definition moved (s s' : StringStream) : Prop :=
  str s' = str s /\ pos s < pos s' <= length (str s).

(** A regular expression whose matches are non-empty and lie within the
    text. *)
Definition sound (re : regex) : Prop :=
  forall l n, re l = Some n -> 0 < n <= length l.

(** The spans follow one another from [from] to [to], each non-empty. *)
Fixpoint contiguous (from : nat) (steps : list Step) (to : nat) : Prop :=
  match steps with
  | [] => from = to
  | s :: rest =>
      start s = from /\ start s < stop s /\ contiguous (stop s) rest to
  end.



Definition none {A : Type} (o : option A) : bool :=
  match o with Some _ => false | None => true end.

(** The conditions under which a call falls through every rule to the
    last two lines of [token]. *)
Definition reachesFallback (stream : StringStream) (state : State) : bool :=
  negb (fst (eatSpace stream))
  && none (if inHeader state && sol stream
           then stream_match re_header stream else None)
  && none (stream_match re_K stream)
  && negb (peek_is "%" (peek stream))
  && none (stream_match re_bar stream)
  && none (stream_match re_note stream)
  && none (stream_match re_accidental stream)
  && none (stream_match re_duration stream)
  && none (stream_match re_rest stream)
  && negb (match peek stream with Some c => (c =? dquote)%N | None => false end)
  && none (stream_match re_slur stream).

(* ================================================================== *)
(** * The CodeMirror view, as far as AbcEditor.tsx uses it *)
(* ================================================================== *)

(** CodeMirror keeps a document as lines: a text given to it as a string
    (the [doc] of [EditorState.create], the [insert] of a change) is split
    on [/\r\n?|\n/], and [doc.toString()] joins the lines with a line
    feed.  So a text enters a document with every CR LF and every lone CR
    turned into LF. *)
Fixpoint normalizeLineBreaks (text : jsString) : jsString :=
  match text with
  | [] => []
  | c :: r =>
      if (c =? CR)%N then
        LF :: match r with
              | d :: r' => if (d =? LF)%N then normalizeLineBreaks r'
                           else normalizeLineBreaks r
              | [] => []
              end
      else c :: normalizeLineBreaks r
  end.

(** [===] on strings *)
Fixpoint text_eqb (a b : jsString) : bool :=
  match a, b with
  | [], [] => true
  | c :: a', d :: b' => (c =? d)%N && text_eqb a' b'
  | _, _ => false
  end.

Record SelectionRange := { anchor : Z; head : Z }.

(** [range.from] and [range.to]: the lower and the upper end *)
Definition rangeFrom (r : SelectionRange) : Z := Z.min (anchor r) (head r).
Definition rangeTo (r : SelectionRange) : Z := Z.max (anchor r) (head r).

Record ChangeSpec := { from : Z; to : Z; insert : jsString }.

(** The argument of [view.dispatch]: [changes], [selection] and the
    position of a [scrollIntoView] effect, each optional. *)
Module Transaction.
Record t := {
  changes : option ChangeSpec;
  selection : option SelectionRange;
  scrollIntoView : option Z
}.
End Transaction.

(** An [EditorView] object: its document, its main selection, whether
    [destroy()] was called on it, and whether the update listener it was
    built with holds an [onSelectionChange] callback (the prop is
    optional). *)
Record EditorView := {
  doc : jsString;
  selection : SelectionRange;
  destroyed : bool;
  notifiesSelection : bool
}.

Definition docLength (v : EditorView) : Z := Z.of_nat (length (doc v)).

(** What the component does that its surroundings can see. *)
Inductive Event :=
| dispatched (view : nat) (tr : Transaction.t)   (* view.dispatch(tr) *)
| onChange (value : jsString)                    (* host callback *)
| onSelectionChange (from to : Z)                (* host callback *)
| warn (from to docLength : Z)                   (* console.warn *)
| focus (view : nat).                            (* view.focus() *)

(** The [ViewUpdate] handed to an update listener. *)
Record ViewUpdate := {
  docChanged : bool;
  selectionSet : bool;
  state : EditorView
}.

(** [EditorView.updateListener.of((update) => ...)] of the component *)
Definition updateListener (update : ViewUpdate) : list Event :=
  (if docChanged update then [onChange (doc (state update))] else [])
  ++ (if selectionSet update && notifiesSelection (state update)
      then let selection := selection (state update) in
           [onSelectionChange (rangeFrom selection) (rangeTo selection)]
      else []).

Definition isEmpty (text : jsString) : bool :=
  match text with [] => true | _ :: _ => false end.

Section Editor.

(** How CodeMirror carries a selection over a change of the document when
    the transaction sets none.  The component never reads a selection that
    was not set by the transaction at hand, so this is left open. *)
Variable mapSelection : ChangeSpec -> SelectionRange -> SelectionRange.

(** The state a transaction leads to and the update it reports; [None]
    when CodeMirror throws a [RangeError] (a change outside the document,
    a selection outside the new document). *)
Definition applyTransaction (tr : Transaction.t) (v : EditorView)
    : option ViewUpdate :=
  let changed :=
    match Transaction.changes tr with
    | None => Some (doc v, selection v, false)
    | Some c =>
        if ((0 <=? from c) && (from c <=? to c) && (to c <=? docLength v))%Z
        then Some (firstn (Z.to_nat (from c)) (doc v)
                     ++ normalizeLineBreaks (insert c)
                     ++ skipn (Z.to_nat (to c)) (doc v),
                   mapSelection c (selection v),
                   negb ((from c =? to c)%Z && isEmpty (insert c)))
        else None
    end in
  match changed with
  | None => None
  | Some (doc', mapped, docChanged') =>
      match Transaction.selection tr with
      | None =>
          Some {| docChanged := docChanged'; selectionSet := false;
                  state := {| doc := doc'; selection := mapped;
                              destroyed := destroyed v;
                              notifiesSelection := notifiesSelection v |} |}
      | Some sel =>
          if ((0 <=? rangeFrom sel) && (rangeTo sel <=? Z.of_nat (length doc')))%Z
          then Some {| docChanged := docChanged'; selectionSet := true;
                       state := {| doc := doc'; selection := sel;
                                   destroyed := destroyed v;
                                   notifiesSelection := notifiesSelection v |} |}
          else None
      end
  end.

(* ================================================================== *)
(** * The component AbcEditor *)
(* ================================================================== *)

(** The objects of one component instance: the [EditorView]s it has
    created (an object is named by its index here, so the references in
    [viewRef], in the cleanup closure and in a pending timer all name the
    same object), its three refs, the [setTimeout] callbacks not yet run
    (each holds the view it will focus), and what it has done so far. *)
Record AbcEditor := {
  editorRef : bool;
  views : list EditorView;
  viewRef : option nat;
  isInternalChangeRef : bool;
  timers : list nat;
  log : list Event
}.

Definition initial (editorRef : bool) : AbcEditor :=
  {| editorRef := editorRef; views := []; viewRef := None;
     isInternalChangeRef := false; timers := []; log := [] |}.

Fixpoint setNth {A : Type} (n : nat) (x : A) (l : list A) : list A :=
  match l, n with
  | [], _ => []
  | _ :: r, 0 => x :: r
  | y :: r, S n' => y :: setNth n' x r
  end.

(** The view [viewRef.current] refers to, with its name. *)
Definition currentView (st : AbcEditor) : option (nat * EditorView) :=
  match viewRef st with
  | Some vid =>
      match nth_error (views st) vid with
      | Some v => Some (vid, v)
      | None => None
      end
  | None => None
  end.

Definition setView (vid : nat) (v : EditorView) (st : AbcEditor) : AbcEditor :=
  {| editorRef := editorRef st; views := setNth vid v (views st);
     viewRef := viewRef st; isInternalChangeRef := isInternalChangeRef st;
     timers := timers st; log := log st |}.

Definition record (events : list Event) (st : AbcEditor) : AbcEditor :=
  {| editorRef := editorRef st; views := views st;
     viewRef := viewRef st; isInternalChangeRef := isInternalChangeRef st;
     timers := timers st; log := log st ++ events |}.

(** [view.dispatch(tr)]: the view takes the new state and, unless it has
    been destroyed, calls the update listener before it returns. *)
Definition dispatch (vid : nat) (tr : Transaction.t) (st : AbcEditor)
    : option AbcEditor :=
  match nth_error (views st) vid with
  | None => None
  | Some v =>
      match applyTransaction tr v with
      | None => None
      | Some update =>
          Some (record (dispatched vid tr
                          :: (if destroyed v then [] else updateListener update))
                  (setView vid (state update) st))
      end
  end.

(** The first effect (run once, on mount): nothing without the element;
    otherwise a new view on [value], referred to by [viewRef]. *)
Definition mountEffect (value : jsString) (onSelectionChange : bool)
    (st : AbcEditor) : AbcEditor :=
  if negb (editorRef st) then st else
  {| editorRef := editorRef st;
     views := views st ++ [ {| doc := normalizeLineBreaks value;
                               selection := {| anchor := 0; head := 0 |};
                               destroyed := false;
                               notifiesSelection := onSelectionChange |} ];
     viewRef := Some (length (views st));
     isInternalChangeRef := isInternalChangeRef st;
     timers := timers st; log := log st |}.

(** Its cleanup, a closure over the view it created:
    [view.destroy(); viewRef.current = null]. *)
Definition cleanup (view : nat) (st : AbcEditor) : AbcEditor :=
  {| editorRef := editorRef st;
     views := match nth_error (views st) view with
              | Some v => setNth view {| doc := doc v; selection := selection v;
                                         destroyed := true;
                                         notifiesSelection := notifiesSelection v |}
                            (views st)
              | None => views st
              end;
     viewRef := None;
     isInternalChangeRef := isInternalChangeRef st;
     timers := timers st; log := log st |}.

(** The effect on [value]. *)
Definition valueEffect (value : jsString) (st : AbcEditor) : option AbcEditor :=
  match currentView st with
  | Some (vid, view) =>
      let currentValue := doc view in
      if negb (text_eqb currentValue value) then
        dispatch vid
          {| Transaction.changes :=
               Some {| from := 0; to := Z.of_nat (length currentValue);
                       insert := value |};
             Transaction.selection := None;
             Transaction.scrollIntoView := None |} st
      else Some st
  | None => Some st
  end.

Definition setTimeout (view : nat) (st : AbcEditor) : AbcEditor :=
  {| editorRef := editorRef st; views := views st;
     viewRef := viewRef st; isInternalChangeRef := isInternalChangeRef st;
     timers := timers st ++ [view]; log := log st |}.

Definition setInternalChange (b : bool) (st : AbcEditor) : AbcEditor :=
  {| editorRef := editorRef st; views := views st;
     viewRef := viewRef st; isInternalChangeRef := b;
     timers := timers st; log := log st |}.

(** The effect on [selectedRange] ([None] for [null] or a missing prop). *)
Definition selectedRangeEffect (selectedRange : option (Z * Z))
    (st : AbcEditor) : option AbcEditor :=
  let body :=
    match currentView st, selectedRange, isInternalChangeRef st with
    | Some (vid, view), Some (from, to), false =>
        let docLength := docLength view in
        (* Validate selection range *)
        if ((from >=? 0) && (to >=? 0) && (from <=? docLength)
            && (to <=? docLength) && (from <=? to))%Z
        then
          match dispatch vid
                  {| Transaction.changes := None;
                     Transaction.selection :=
                       Some {| anchor := from; head := to |};
                     Transaction.scrollIntoView := Some from |} st with
          | Some st' => Some (setTimeout vid st')
          | None => None
          end
        else Some (record [warn from to docLength] st)
    | _, _, _ => Some st
    end in
  match body with
  | Some st' => Some (setInternalChange false st')
  | None => None
  end.

(** A pending timer runs: [view.focus()] on the view it holds. *)
Definition runTimer (st : AbcEditor) : AbcEditor :=
  match timers st with
  | [] => st
  | view :: rest =>
      {| editorRef := editorRef st; views := views st;
         viewRef := viewRef st; isInternalChangeRef := isInternalChangeRef st;
         timers := rest; log := log st ++ [focus view] |}
  end.

(** The user acts on the view on screen (types, clicks, moves the
    cursor): the view dispatches a transaction of its own. *)
Definition userTransaction (tr : Transaction.t) (st : AbcEditor)
    : option AbcEditor :=
  match currentView st with
  | Some (vid, _) => dispatch vid tr st
  | None => None
  end.

(** The states a component instance passes through. *)
Inductive reachable : AbcEditor -> Prop :=
| reach_initial (editorRef : bool) : reachable (initial editorRef)
| reach_mount st value onSelectionChange :
    reachable st -> viewRef st = None ->
    reachable (mountEffect value onSelectionChange st)
| reach_cleanup st view :
    reachable st -> viewRef st = Some view -> reachable (cleanup view st)
| reach_value st value st' :
    reachable st -> valueEffect value st = Some st' -> reachable st'
| reach_selectedRange st selectedRange st' :
    reachable st -> selectedRangeEffect selectedRange st = Some st' ->
    reachable st'
| reach_user st tr st' :
    reachable st -> userTransaction tr st = Some st' -> reachable st'
| reach_timer st : reachable st -> reachable (runTimer st).

End Editor.

(** What holds in every state of a component: nothing ever sets
    [isInternalChangeRef], and [viewRef] refers to a view that exists and
    has not been destroyed. *)
Definition invariant (st : AbcEditor) : Prop :=
  isInternalChangeRef st = false
  /\ forall vid, viewRef st = Some vid ->
       exists v, nth_error (views st) vid = Some v /\ destroyed v = false.

(* ================================================================== *)
(** * Concrete runs *)
(* ================================================================== *)

(** For concrete runs: a position carried over one change the way
    CodeMirror's [mapPos] does it ([assoc] tells which side of an inserted
    text the position stays on), and a selection carried over by its ends. *)
Definition mapPos (c : ChangeSpec) (assoc p : Z) : Z :=
  let ins := Z.of_nat (length (normalizeLineBreaks (insert c))) in
  (if p <? from c then p
   else if (p <? to c) || ((p =? to c) && (assoc <? 0) && (from c =? to c))
   then if (p =? from c) || (assoc <? 0) then from c else from c + ins
   else p - (to c - from c) + ins)%Z.

Definition mapThroughChange (c : ChangeSpec) (r : SelectionRange)
    : SelectionRange :=
  if (anchor r =? head r)%Z
  then {| anchor := mapPos c (-1) (anchor r); head := mapPos c (-1) (anchor r) |}
  else if (anchor r <? head r)%Z
  then {| anchor := mapPos c 1 (anchor r); head := mapPos c (-1) (head r) |}
  else {| anchor := mapPos c (-1) (anchor r); head := mapPos c 1 (head r) |}.

(** A component mounted on a document of length 10, with an
    [onSelectionChange] callback. *)
Definition mounted : AbcEditor :=
  mountEffect (js "0123456789") true (initial true).

Definition mountedView : EditorView :=
  {| doc := js "0123456789"; selection := {| anchor := 0; head := 0 |};
     destroyed := false; notifiesSelection := true |}.

(** The same after the host has asked for the selection 2 to 5. *)
Definition selected : option AbcEditor :=
  selectedRangeEffect mapThroughChange (Some (2, 5)%Z) mounted.

(* ================================================================== *)
(** * The rules of the tokenizer, one by one *)
(* ================================================================== *)

(** Which rule of [token] produced a result, with what made it fire.  The
    rule for [K:] is only reached past the rule for header fields, which
    takes every [K:] at the start of a line in the header. *)
Inductive tokenBy : StringStream -> State -> Result -> Prop :=
| by_space s st n :
    prefix_len isSpace (remaining s) = S n ->
    tokenBy s st (None, advance (S n) s, st)
| by_header s st n :
    inHeader st = true -> pos s = 0 -> re_header (remaining s) = Some n ->
    tokenBy s st (Some Tag.keyword, advance n s, st)
| by_K s st n :
    inHeader st = false \/ 0 < pos s -> re_K (remaining s) = Some n ->
    tokenBy s st (Some Tag.keyword, advance n s, {| inHeader := false |})
| by_comment s st r :
    remaining s = ch "%" :: r ->
    tokenBy s st (Some Tag.comment, skipToEnd s, st)
| by_bar s st n :
    re_bar (remaining s) = Some n ->
    tokenBy s st (Some Tag.operator, advance n s, st)
| by_note s st n :
    re_note (remaining s) = Some n ->
    tokenBy s st (Some Tag.variableName, advance n s, st)
| by_accidental s st n :
    re_accidental (remaining s) = Some n ->
    tokenBy s st (Some Tag.modifier, advance n s, st)
| by_duration s st n :
    re_duration (remaining s) = Some n ->
    tokenBy s st (Some Tag.number, advance n s, st)
| by_rest s st n :
    re_rest (remaining s) = Some n ->
    tokenBy s st (Some Tag.atom, advance n s, st)
| by_chord s st r :
    remaining s = dquote :: r ->
    tokenBy s st
      (Some Tag.string,
       next (eatWhile (fun c => negb (c =? dquote)%N) (next s)), st)
| by_slur s st n :
    re_slur (remaining s) = Some n ->
    tokenBy s st (Some Tag.punctuation, advance n s, st)
| by_default s st :
    prefix_len isSpace (remaining s) = 0 ->
    tokenBy s st (None, next s, st).

(** All characters of a chord but the last are other than the double
    quote. *)
Fixpoint chordBody (l : jsString) : bool :=
  match l with
  | [] => true
  | [_] => true
  | c :: r => negb (c =? dquote)%N && chordBody r
  end.

(** What the text of a step looks like, by the style returned with it. *)
Definition shaped (sty : option Tag.t) (span : jsString) : bool :=
  match sty, span with
  | Some Tag.keyword, [c; d] =>
      (in_range "A" "Z" c || in_range "a" "z" c) && is_ch ":" d
  | Some Tag.comment, c :: _ => is_ch "%" c
  | Some Tag.operator, [c] =>
      is_ch "|" c || is_ch ":" c || is_ch "[" c || is_ch "]" c
  | Some Tag.variableName, c :: r =>
      (in_range "A" "G" c || in_range "a" "g" c) && forallb isOctave r
  | Some Tag.modifier, [c] => isAccidental c
  | Some Tag.modifier, [c; d] => isAccidental c && isAccidental d
  | Some Tag.number, c :: r =>
      if is_ch "/" c then negb (isEmpty r) && forallb isDigit r
      else forallb isDigit (c :: r)
  | Some Tag.atom, [c] => is_ch "z" c || is_ch "x" c || is_ch "Z" c
  | Some Tag.string, c :: r => (c =? dquote)%N && chordBody r
  | Some Tag.punctuation, [c] => is_ch "(" c || is_ch ")" c || is_ch "-" c
  | None, c :: r => if isSpace c then forallb isSpace r else isEmpty r
  | _, _ => false
  end.

(** The character a step stops in front of does not continue its run:
    no octave mark after a note, no digit after a length, no white space
    after skipped white space. *)
Definition stopsRun (sty : option Tag.t) (span : jsString)
    (following : option char) : bool :=
  match following with
  | None => true
  | Some c =>
      match sty, span with
      | Some Tag.variableName, _ => negb (isOctave c)
      | Some Tag.number, _ => negb (isDigit c)
      | None, b :: _ => negb (isSpace b && isSpace c)
      | _, _ => true
      end
  end.

(** [K:] somewhere in a text *)
Fixpoint hasKey (l : jsString) : bool :=
  match l with
  | [] => false
  | c :: r =>
      match r with
      | d :: _ => is_ch "K" c && is_ch ":" d || hasKey r
      | [] => false
      end
  end.

(** [K:] somewhere in a line beyond its first column *)
Definition keyBeyondStart (line : jsString) : bool :=
  match line with
  | [] => false
  | _ :: r => hasKey r
  end.

(** An event that is not a call of [onChange] *)
Definition notOnChange (e : Event) : Prop :=
  match e with
  | onChange _ => False
  | _ => True
  end.

(** The transaction of the selection effect and the one of the content
    effect. *)
Definition selectionRequest (from to : Z) : Transaction.t :=
  {| Transaction.changes := None;
     Transaction.selection := Some {| anchor := from; head := to |};
     Transaction.scrollIntoView := Some from |}.

Definition replaceAll (view : EditorView) (value : jsString) : Transaction.t :=
  {| Transaction.changes :=
       Some {| from := 0; to := docLength view; insert := value |};
     Transaction.selection := None;
     Transaction.scrollIntoView := None |}.

(** A view with another selection. *)
Definition withSelection (view : EditorView) (sel : SelectionRange)
    : EditorView :=
  {| doc := doc view; selection := sel; destroyed := destroyed view;
     notifiesSelection := notifiesSelection view |}.

(* ================================================================== *)
(** * Every call of the tokenizer moves the stream *)
(* ================================================================== *)

Lemma prefix_len_le (f : char -> bool) (l : jsString) :
  prefix_len f l <= length l.
Proof.
  induction l as [|c r IH]; simpl; [lia|].
  destruct (f c); simpl; lia.
Qed.

Lemma prefix_len_all (f : char -> bool) (l : jsString) :
  (forall c, In c l -> f c = true) -> prefix_len f l = length l.
Proof.
  induction l as [|c r IH]; simpl; intros H; [reflexivity|].
  rewrite (H c) by auto. f_equal. apply IH. auto.
Qed.

Lemma remaining_length (s : StringStream) :
  length (remaining s) = length (str s) - pos s.
Proof. unfold remaining. apply length_skipn. Qed.

Lemma stream_match_moved (re : regex) (s s' : StringStream) :
  sound re -> stream_match re s = Some s' -> moved s s'.
Proof.
  unfold stream_match. intros Hre H.
  destruct (re (remaining s)) as [n|] eqn:E; [|discriminate].
  injection H as <-. apply Hre in E. rewrite remaining_length in E.
  unfold moved, advance; simpl. split; [reflexivity | lia].
Qed.

Ltac sound_head :=
  let l := fresh "l" in let n := fresh "n" in let H := fresh "H" in
  intros l n H; destruct l as [|? l]; simpl in H; [discriminate|];
  repeat match type of H with
         | (if ?b then _ else _) = _ => destruct b; [|discriminate]
         | Some _ = Some _ => injection H as <-; simpl; lia
         end.

Lemma sound_header : sound re_header.
Proof.
  intros l n H. destruct l as [|c [|d l]]; simpl in H; try discriminate.
  destruct (_ && _); [|discriminate]. injection H as <-. simpl. lia.
Qed.

Lemma sound_K : sound re_K.
Proof.
  intros l n H. destruct l as [|c [|d l]]; simpl in H; try discriminate.
  destruct (_ && _); [|discriminate]. injection H as <-. simpl. lia.
Qed.

Lemma sound_bar : sound re_bar.
Proof. sound_head. Qed.

Lemma sound_note : sound re_note.
Proof.
  intros l n H. destruct l as [|c r]; simpl in H; [discriminate|].
  destruct (_ || _); [|discriminate]. injection H as <-.
  pose proof (prefix_len_le isOctave r). simpl. lia.
Qed.

Lemma sound_accidental : sound re_accidental.
Proof.
  intros l n H. destruct l as [|c r]; simpl in H; [discriminate|].
  destruct (isAccidental c); [|discriminate].
  destruct r as [|d r]; [injection H as <-; simpl; lia|].
  destruct (isAccidental d); injection H as <-; simpl; lia.
Qed.

Lemma sound_duration : sound re_duration.
Proof.
  intros l n H. destruct l as [|c r]; [discriminate|].
  unfold re_duration in H. destruct (is_ch "/" c).
  - pose proof (prefix_len_le isDigit r).
    destruct (prefix_len isDigit r); [discriminate|].
    injection H as <-. simpl. lia.
  - pose proof (prefix_len_le isDigit (c :: r)).
    destruct (prefix_len isDigit (c :: r)); [discriminate|].
    injection H as <-. lia.
Qed.

Lemma sound_rest : sound re_rest.
Proof. sound_head. Qed.

Lemma sound_slur : sound re_slur.
Proof. sound_head. Qed.

Create HintDb abc discriminated.
#[local] Hint Resolve sound_header sound_K sound_bar sound_note
  sound_accidental sound_duration sound_rest sound_slur : abc.

Lemma next_moved (s : StringStream) :
  pos s < length (str s) -> moved s (next s).
Proof.
  intros H. unfold next.
  destruct (Nat.ltb_spec (pos s) (length (str s))); [|lia].
  unfold moved, advance; simpl. split; [reflexivity | lia].
Qed.

Lemma next_within (s : StringStream) :
  pos s <= length (str s) ->
  str (next s) = str s /\ pos s <= pos (next s) <= length (str s).
Proof.
  intros H. unfold next.
  destruct (Nat.ltb_spec (pos s) (length (str s))); simpl; split; auto; lia.
Qed.

Lemma eatWhile_within (f : char -> bool) (s : StringStream) :
  pos s <= length (str s) ->
  str (eatWhile f s) = str s /\ pos s <= pos (eatWhile f s) <= length (str s).
Proof.
  intros H. pose proof (prefix_len_le f (remaining s)) as Hn.
  rewrite remaining_length in Hn.
  unfold eatWhile, advance; simpl. split; [reflexivity | lia].
Qed.

Lemma chord_moved (s : StringStream) (f : char -> bool) :
  pos s < length (str s) -> moved s (next (eatWhile f (next s))).
Proof.
  intros H. destruct (next_moved s H) as [Hs Hp].
  destruct (eatWhile_within f (next s)) as [Hs' Hp']; [rewrite Hs; lia|].
  destruct (next_within (eatWhile f (next s))) as [Hs'' Hp''];
    [rewrite Hs', Hs in *; lia|].
  rewrite Hs', Hs in *. split; [congruence | lia].
Qed.

Ltac rule re :=
  match goal with
  | |- context [stream_match re ?s] =>
      let E := fresh "E" in
      destruct (stream_match re s) eqn:E;
      [simpl; apply (stream_match_moved re); auto with abc|]
  end.

Ltac rules_after_header :=
  rule re_K;
  [destruct (peek_is "%" _);
   [simpl; unfold moved, skipToEnd; simpl; split; [reflexivity | lia]|];
   rule re_bar; rule re_note; rule re_accidental; rule re_duration;
   rule re_rest;
   destruct (match peek _ with Some c => (c =? dquote)%N | None => false end);
   [simpl; now apply chord_moved|];
   rule re_slur; simpl; now apply next_moved].

Lemma token_moved (stream : StringStream) (state : State) :
  pos stream < length (str stream) ->
  moved stream (streamOf (token stream state)).
Proof.
  intros Hpos. unfold token, eatSpace, streamOf.
  destruct (0 <? prefix_len isSpace (remaining stream)) eqn:Hsp.
  - simpl. apply Nat.ltb_lt in Hsp.
    pose proof (prefix_len_le isSpace (remaining stream)) as Hle.
    rewrite remaining_length in Hle. unfold moved, advance; simpl.
    split; [reflexivity | lia].
  - destruct (inHeader state && sol stream).
    + rule re_header. rules_after_header.
    + rules_after_header.
Qed.

Lemma readToken_token (stream : StringStream) (state : State) :
  pos stream < length (str stream) ->
  readToken stream state = Some (token stream state).
Proof.
  intros Hpos. pose proof (token_moved stream state Hpos) as [_ Hm].
  unfold readToken. cbn [readToken_from]. unfold streamOf in Hm.
  destruct (token stream state) as [[sty stream'] state']. simpl in Hm.
  destruct (Nat.ltb_spec (pos stream) (pos stream')); [reflexivity | lia].
Qed.

(* ================================================================== *)
(** * A scan covers its text *)
(* ================================================================== *)

Lemma parseLoop_eq (fuel : nat) (stream : StringStream) (state : State) :
  parseLoop fuel stream state =
  if eol stream then Some ([], state) else
  match fuel with
  | 0 => None
  | S fuel' =>
      match readToken stream state with
      | None => None
      | Some (sty, stream', state') =>
          let step := {| start := pos stream; stop := pos stream';
                         style := sty; after := state' |} in
          if MaxLineLength <? pos stream then Some ([step], state')
          else
            match parseLoop fuel' stream' state' with
            | None => None
            | Some (steps, final) => Some (step :: steps, final)
            end
      end
  end.
Proof. destruct fuel; reflexivity. Qed.

Lemma slice_skipn (text : jsString) (a b : nat) :
  a <= b -> slice text a b ++ skipn b text = skipn a text.
Proof.
  intros H. unfold slice.
  replace (skipn b text) with (skipn (b - a) (skipn a text)).
  - apply firstn_skipn.
  - rewrite skipn_skipn. f_equal. lia.
Qed.

Lemma parseLoop_covers (fuel : nat) :
  forall (stream : StringStream) (state : State),
    pos stream <= length (str stream) ->
    length (str stream) - pos stream <= fuel ->
    exists steps final,
      parseLoop fuel stream state = Some (steps, final)
      /\ length steps <= length (str stream) - pos stream
      /\ (length (str stream) <= MaxLineLength ->
          contiguous (pos stream) steps (length (str stream))
          /\ concat (map (spanText (str stream)) steps) = remaining stream).
Proof.
  induction fuel as [|fuel IH]; intros stream state Hle Hfuel;
    rewrite parseLoop_eq; unfold eol;
    destruct (Nat.leb_spec (length (str stream)) (pos stream)) as [Hend|Hmore].
  1, 2, 3:
    exists [], state; simpl; repeat split; try lia;
    unfold remaining; symmetry; apply skipn_all2; lia.
  rewrite (readToken_token stream state Hmore).
  pose proof (token_moved stream state Hmore) as [Hstr Hpos].
  unfold streamOf in *.
  destruct (token stream state) as [[sty stream'] state']; simpl in *.
  destruct (Nat.ltb_spec MaxLineLength (pos stream)) as [Hfar|Hnear].
  - eexists; eexists; split; [reflexivity|]. simpl. split; lia.
  - destruct (IH stream' state') as (steps & final & Hrun & Hlen & Hshort);
      [rewrite Hstr; lia | rewrite Hstr; lia|].
    rewrite Hrun. eexists; eexists; split; [reflexivity|].
    rewrite Hstr in *. simpl. split; [lia|].
    intros Hmax. destruct (Hshort Hmax) as [Hcont Hcat].
    repeat split; auto; try lia.
    unfold spanText at 1; simpl. rewrite Hcat. unfold remaining. rewrite Hstr.
    apply slice_skipn. lia.
Qed.

Lemma parseLine_covers (text : jsString) (state : State) :
  exists steps final,
    parseLine text state = Some (steps, final)
    /\ (length text <= MaxLineLength -> contiguous 0 steps (length text))
    /\ (length text <= MaxLineLength ->
        concat (map (spanText text) steps) = text)
    /\ length steps <= length text.
Proof.
  destruct (parseLoop_covers (length text) {| str := text; pos := 0 |} state)
    as (steps & final & Hrun & Hlen & Hshort); simpl; try lia.
  exists steps, final. simpl in *. rewrite Nat.sub_0_r in Hlen.
  repeat split; auto; intros Hmax; now destruct (Hshort Hmax).
Qed.

Lemma peek_remaining (s : StringStream) (c : char) :
  peek s = Some c -> remaining s = c :: skipn (S (pos s)) (str s).
Proof.
  unfold peek, remaining. generalize (pos s) as n.
  induction (str s) as [|a l IH]; intros [|n] H; simpl in *;
    try discriminate.
  - now injection H as ->.
  - now apply IH.
Qed.

Lemma peek_some_lt (s : StringStream) (c : char) :
  peek s = Some c -> pos s < length (str s).
Proof.
  unfold peek. intros H. apply nth_error_Some. congruence.
Qed.

Lemma fallback_token (stream : StringStream) (state : State) :
  reachesFallback stream state = true ->
  token stream state = (None, next stream, state).
Proof.
  unfold reachesFallback, token. intros H.
  repeat (apply andb_prop in H as [H ?]).
  destruct (eatSpace stream) as [ate skipped]. simpl in H.
  destruct ate; [discriminate|].
  repeat match goal with
         | H : none ?o = true |- _ => destruct o; [discriminate|]; clear H
         | H : negb ?b = true |- _ => destruct b; [discriminate|]; clear H
         end.
  reflexivity.
Qed.

Lemma space_token (stream : StringStream) (state : State) (c : char) :
  peek stream = Some c -> isSpace c = true ->
  token stream state =
    (None, advance (prefix_len isSpace (remaining stream)) stream, state)
  /\ 0 < prefix_len isSpace (remaining stream).
Proof.
  intros Hpeek Hsp. unfold token, eatSpace.
  rewrite (peek_remaining stream c Hpeek). cbn [prefix_len]. rewrite Hsp.
  split; [reflexivity | lia].
Qed.

Lemma chord_token (stream : StringStream) (state : State) :
  peek stream = Some dquote ->
  token stream state =
    (Some Tag.string,
     next (eatWhile (fun c => negb (c =? dquote)%N) (next stream)), state).
Proof.
  intros Hpeek. unfold token, eatSpace, stream_match.
  rewrite (peek_remaining stream dquote Hpeek), Hpeek.
  destruct (skipn (S (pos stream)) (str stream));
    destruct (inHeader state && sol stream); reflexivity.
Qed.

Lemma unterminated_chord_end (stream : StringStream) :
  peek stream = Some dquote ->
  ~ In dquote (skipn (S (pos stream)) (str stream)) ->
  next (eatWhile (fun c => negb (c =? dquote)%N) (next stream))
  = skipToEnd stream.
Proof.
  intros Hpeek Hno. pose proof (peek_some_lt stream dquote Hpeek) as Hlt.
  unfold next at 2.
  destruct (Nat.ltb_spec (pos stream) (length (str stream))); [|lia].
  unfold eatWhile, remaining, advance; simpl.
  rewrite prefix_len_all.
  - rewrite length_skipn. unfold next, skipToEnd; simpl.
    destruct (Nat.ltb_spec (pos stream + 1 + (length (str stream) - (pos stream + 1)))
                (length (str stream))); [lia|].
    f_equal. lia.
  - intros c Hin. replace (pos stream + 1) with (S (pos stream)) in Hin by lia.
    destruct (N.eqb_spec c dquote) as [->|]; [contradiction | reflexivity].
Qed.








Lemma parseLines_total (ls : list jsString) :
  forall (parsedPos : nat) (state : State),
  exists steps final,
    parseLines parsedPos ls state = Some (steps, final)
    /\ length steps <= length (concat ls).
Proof.
  induction ls as [|line rest IH]; intros parsedPos state; simpl.
  - exists [], state. auto.
  - destruct (parseLine_covers line state)
      as (steps & state' & -> & _ & _ & Hlen).
    destruct (IH (parsedPos + length line + 1) state')
      as (more & final & -> & Hmore).
    exists (map (shift parsedPos) steps ++ more), final.
    split; [reflexivity|].
    rewrite !length_app, length_map. lia.
Qed.

Lemma lines_length (text : jsString) :
  length (concat (lines text)) <= length text.
Proof.
  induction text as [|c r IH]; simpl; [lia|].
  destruct (c =? LF)%N; simpl; [lia|].
  destruct (lines r) as [|l ls]; simpl in *; lia.
Qed.

(** A document, scanned line by line, is scanned to its end without error
    in no more steps than it has characters. *)
Lemma parseDocument_total (text : jsString) :
  exists steps final,
    parseDocument text = Some (steps, final) /\ length steps <= length text.
Proof.
  destruct (parseLines_total (lines text) 0 startState)
    as (steps & final & Hrun & Hlen).
  exists steps, final. split; [exact Hrun|].
  pose proof (lines_length text). lia.
Qed.

(* ================================================================== *)
(** * Properties of the tokenizer *)
(* ================================================================== *)

(** C2.  On the tune [X:1\nT:Title\nK:C\nABC|def], handed over line by
    line, the tokenizer returns [keyword] (header) for [X:], [T:] and [K:],
    [variableName] (note) for each of [A], [B], [C], [operator] (bar) for
    [|] and [variableName] for each of [d], [e], [f]; but the [K:] at the
    start of its line is taken by the rule for header fields, which leaves
    [inHeader] as it is: the flag is still [true] after that token and at
    the end of the scan. *)
Theorem C2_tune_tokens_inHeader_stays_true :
  option_map (fun r => (map (render abcTune) (fst r), inHeader (snd r)))
    (parseDocument abcTune)
  = Some ([ (js "X:", Some Tag.keyword, true);
            (js "1", Some Tag.number, true);
            (js "T:", Some Tag.keyword, true);
            (js "T", None, true);
            (js "i", None, true);
            (js "t", None, true);
            (js "l", None, true);
            (js "e", Some Tag.variableName, true);
            (js "K:", Some Tag.keyword, true);
            (js "C", Some Tag.variableName, true);
            (js "A", Some Tag.variableName, true);
            (js "B", Some Tag.variableName, true);
            (js "C", Some Tag.variableName, true);
            (js "|", Some Tag.operator, true);
            (js "d", Some Tag.variableName, true);
            (js "e", Some Tag.variableName, true);
            (js "f", Some Tag.variableName, true) ],
          true).
Proof. vm_compute. reflexivity. Qed.

(** The defect behind C2 in general: at the start of a line in the header,
    [K:] is a header field like any other and the state is returned as it
    was; only a [K:] further into a line reaches the rule that clears
    [inHeader]. *)
Lemma K_at_line_start_keeps_inHeader (rest : jsString) :
  token {| str := js "K:" ++ rest; pos := 0 |} startState
  = (Some Tag.keyword, {| str := js "K:" ++ rest; pos := 2 |}, startState).
Proof. reflexivity. Qed.

Lemma K_after_space_clears_inHeader (rest : jsString) :
  token {| str := js " K:" ++ rest; pos := 1 |} startState
  = (Some Tag.keyword, {| str := js " K:" ++ rest; pos := 3 |},
     {| inHeader := false |}).
Proof. reflexivity. Qed.

(** Were the tune handed over as one stream instead, its line feeds would
    be skipped as white space, [T:] would not be at the start of a line
    (a plain [T] and a bar [:]), and the [K:] further on would clear
    [inHeader]. *)
Lemma abcTune_as_one_stream :
  option_map (fun r => (map (render abcTune) (fst r), inHeader (snd r)))
    (parseLine abcTune startState)
  = Some ([ (js "X:", Some Tag.keyword, true);
            (js "1", Some Tag.number, true);
            (js "\n", None, true);
            (js "T", None, true);
            (js ":", Some Tag.operator, true);
            (js "T", None, true);
            (js "i", None, true);
            (js "t", None, true);
            (js "l", None, true);
            (js "e", Some Tag.variableName, true);
            (js "\n", None, true);
            (js "K:", Some Tag.keyword, false);
            (js "C", Some Tag.variableName, false);
            (js "\n", None, false);
            (js "A", Some Tag.variableName, false);
            (js "B", Some Tag.variableName, false);
            (js "C", Some Tag.variableName, false);
            (js "|", Some Tag.operator, false);
            (js "d", Some Tag.variableName, false);
            (js "e", Some Tag.variableName, false);
            (js "f", Some Tag.variableName, false) ],
          false).
Proof. vm_compute. reflexivity. Qed.

(** Line by line, the line feeds are never handed to the tokenizer: the
    spans of a document leave them out. *)
Lemma parseDocument_leaves_line_feeds_out :
  option_map (fun r => map (fun s => (start s, stop s)) (fst r))
    (parseDocument (js "A\nB"))
  = Some [(0, 1); (2, 3)].
Proof. vm_compute. reflexivity. Qed.

(** With more than [MaxLineLength] blanks before them, only the first
    of two notes is reached: the scan of the line ends after the token
    that started beyond column [MaxLineLength]. *)
Lemma long_line_is_left_early :
  option_map (fun r => map (fun s => (start s, stop s, style s)) (fst r))
    (parseLine (repeat (ch " ") (S MaxLineLength) ++ js "AB") startState)
  = Some [ (0, S MaxLineLength, None);
           (S MaxLineLength, S (S MaxLineLength), Some Tag.variableName) ].
Proof. vm_compute. reflexivity. Qed.




(** C4.  Whatever the text and the scanner state, a call of [token] on a
    stream that is not at its end moves the position forward by at least
    one character and not past the end; and the scan of a text ends
    without error after at most as many steps as the text has
    characters. *)
Theorem C4_every_step_consumes_and_scan_terminates
    (text : jsString) (p : nat) (state : State) :
  p < length text ->
  (let stream := {| str := text; pos := p |} in
   pos stream < pos (streamOf (token stream state)) <= length text
   /\ readToken stream state = Some (token stream state))
  /\ exists steps final,
       parseLine text state = Some (steps, final)
       /\ length steps <= 1 * length text.
Proof.
  intros Hp. split.
  - simpl. split.
    + now destruct (token_moved {| str := text; pos := p |} state Hp).
    + now apply readToken_token.
  - destruct (parseLine_covers text state)
      as (steps & final & Hrun & _ & _ & Hlen).
    exists steps, final. split; [assumption | lia].
Qed.

Lemma C4_witness :
  1 < length (js "ABC|")
  /\ exists steps final,
       parseLine (js "ABC|") startState = Some (steps, final)
       /\ length steps <= 1 * length (js "ABC|").
Proof.
  split; [vm_compute; lia|].
  apply (C4_every_step_consumes_and_scan_terminates (js "ABC|") 1 startState).
  vm_compute; lia.
Defined.

(** C7 as stated fails: a step over a blank and a step through the
    fallback branch over a letter that no rule knows both return [null],
    both consume one character and both leave the state alone; the value
    returned does not tell them apart and no token tagged Plain exists. *)
Lemma C7_counterexample :
  let blank := {| str := js " "; pos := 0 |} in
  let other := {| str := js "h"; pos := 0 |} in
  peek blank = Some (ch " ") /\ isSpace (ch " ") = true
  /\ reachesFallback other startState = true
  /\ styleOf (token blank startState) = styleOf (token other startState)
  /\ pos (streamOf (token blank startState)) = pos (streamOf (token other startState))
  /\ stateOf (token blank startState) = stateOf (token other startState).
Proof. vm_compute. repeat split. Qed.

(** C7, amended.  A step that begins at white space skips the whole run
    of white space and returns [null]; a step that reaches the fallback
    branch before the end of the stream consumes exactly one character and
    returns [null] as well.  In both cases the state is unchanged and no
    style is returned, so neither step emits a token. *)
Theorem C7_space_and_fallback_both_return_null
    (blank other : StringStream) (state state' : State) (c : char) :
  peek blank = Some c -> isSpace c = true ->
  reachesFallback other state' = true -> eol other = false ->
  token blank state
    = (None, advance (prefix_len isSpace (remaining blank)) blank, state)
  /\ 0 < prefix_len isSpace (remaining blank)
  /\ token other state' = (None, advance 1 other, state')
  /\ emitted [ {| start := pos blank;
                  stop := pos (streamOf (token blank state));
                  style := styleOf (token blank state);
                  after := stateOf (token blank state) |};
               {| start := pos other;
                  stop := pos (streamOf (token other state'));
                  style := styleOf (token other state');
                  after := stateOf (token other state') |} ] = [].
Proof.
  intros Hpeek Hsp Hfb Hend.
  destruct (space_token blank state c Hpeek Hsp) as [Hblank Hn].
  pose proof (fallback_token other state' Hfb) as Hother.
  assert (next other = advance 1 other) as Hnext.
  { unfold next, eol in *. apply Nat.leb_gt in Hend.
    now destruct (Nat.ltb_spec (pos other) (length (str other))); [|lia]. }
  rewrite Hnext in Hother. rewrite Hblank, Hother. auto.
Qed.

Lemma C7_witness :
  let blank := {| str := js "A  B"; pos := 1 |} in
  let other := {| str := js "why"; pos := 0 |} in
  token blank startState = (None, {| str := js "A  B"; pos := 3 |}, startState)
  /\ token other startState = (None, {| str := js "why"; pos := 1 |}, startState).
Proof.
  destruct (C7_space_and_fallback_both_return_null
              {| str := js "A  B"; pos := 1 |} {| str := js "why"; pos := 0 |}
              startState startState (ch " "))
    as (Hb & _ & Ho & _); try reflexivity.
  split; [exact Hb | exact Ho].
Defined.

(** C8 as stated fails: in the document with the lines [dquote Am] and
    [CD], the chord opened in the first line is never closed; the token
    tagged [string] ends with the first line, at offset 3, and [C] and [D]
    of the second line are notes: the chord does not reach the end of the
    input. *)
Lemma C8_counterexample :
  option_map (fun r => map (fun s => (start s, stop s, style s)) (fst r))
    (parseDocument (dquote :: js "Am\nCD"))
  = Some [ (0, 3, Some Tag.string);
           (4, 5, Some Tag.variableName);
           (5, 6, Some Tag.variableName) ]
  /\ ~ In dquote (js "Am\nCD")
  /\ length (dquote :: js "Am\nCD") = 6.
Proof.
  vm_compute. repeat split. intuition discriminate.
Qed.

(** C8, amended.  When the stream (one line of the input) is at a double
    quote and no double quote follows it in the line, the call does not
    fail: it returns [string] (drawn as a chord), leaves the state alone
    and consumes from the quote to the end of the line, so that the scan
    of the line ends with this one token; what follows in later lines is
    not part of it. *)
Theorem C8_unterminated_chord_runs_to_end_of_line
    (stream : StringStream) (state : State) :
  peek stream = Some dquote ->
  ~ In dquote (skipn (S (pos stream)) (str stream)) ->
  token stream state = (Some Tag.string, skipToEnd stream, state)
  /\ abcHighlightStyle Tag.string = cm_abc_chord
  /\ pos (skipToEnd stream) = length (str stream)
  /\ readToken stream state = Some (Some Tag.string, skipToEnd stream, state)
  /\ forall fuel,
       parseLoop (S fuel) stream state
       = Some ([ {| start := pos stream; stop := length (str stream);
                    style := Some Tag.string; after := state |} ], state).
Proof.
  intros Hpeek Hno.
  assert (token stream state = (Some Tag.string, skipToEnd stream, state)) as H.
  { rewrite (chord_token stream state Hpeek).
    now rewrite (unterminated_chord_end stream Hpeek Hno). }
  pose proof (peek_some_lt stream dquote Hpeek) as Hlt.
  assert (readToken stream state
          = Some (Some Tag.string, skipToEnd stream, state)) as Hread.
  { rewrite <- H. now apply readToken_token. }
  repeat split; auto.
  intros fuel. rewrite parseLoop_eq. unfold eol.
  destruct (Nat.leb_spec (length (str stream)) (pos stream)); [lia|].
  rewrite Hread. cbv zeta.
  destruct (MaxLineLength <? pos stream); [reflexivity|].
  rewrite parseLoop_eq. unfold eol, skipToEnd; cbn [pos str].
  now rewrite Nat.leb_refl.
Qed.

Lemma C8_witness :
  let stream := {| str := js "C " ++ dquote :: js "Am7 D"; pos := 2 |} in
  token stream startState
  = (Some Tag.string, {| str := str stream; pos := 8 |}, startState).
Proof.
  destruct (C8_unterminated_chord_runs_to_end_of_line
              {| str := js "C " ++ dquote :: js "Am7 D"; pos := 2 |} startState)
    as [H _].
  - reflexivity.
  - vm_compute. intuition discriminate.
  - exact H.
Defined.

(* ================================================================== *)
(** * Properties of the component *)
(* ================================================================== *)

Lemma text_eqb_eq (a b : jsString) : text_eqb a b = true <-> a = b.
Proof.
  revert b. induction a as [|c a IH]; intros [|d b]; simpl;
    try (split; [discriminate | congruence]); [tauto|].
  rewrite andb_true_iff, N.eqb_eq, IH. split.
  - now intros [-> ->].
  - intros H; injection H; auto.
Qed.

Lemma normalizeLineBreaks_no_CR (text : jsString) :
  ~ In CR text -> normalizeLineBreaks text = text.
Proof.
  induction text as [|c r IH]; intros H; [reflexivity|].
  simpl in *. destruct (N.eqb_spec c CR) as [->|_]; [tauto|].
  f_equal. apply IH. tauto.
Qed.

Lemma setNth_length {A : Type} (n : nat) (x : A) (l : list A) :
  length (setNth n x l) = length l.
Proof.
  revert n. induction l as [|y l IH]; intros [|n]; simpl; auto.
Qed.

Lemma nth_error_setNth {A : Type} (n : nat) (x : A) (l : list A) :
  n < length l -> nth_error (setNth n x l) n = Some x.
Proof.
  revert n. induction l as [|y l IH]; intros [|n] H; simpl in *;
    try lia; auto. apply IH. lia.
Qed.

Lemma setNth_twice {A : Type} (n : nat) (x : A) (l : list A) :
  setNth n x (setNth n x l) = setNth n x l.
Proof.
  revert n. induction l as [|y l IH]; intros [|n]; simpl; auto.
  now rewrite IH.
Qed.

Section EditorProperties.

Variable mapSelection : ChangeSpec -> SelectionRange -> SelectionRange.

Local Abbreviation applyTransaction := (applyTransaction mapSelection).
Local Abbreviation dispatch := (dispatch mapSelection).
Local Abbreviation valueEffect := (valueEffect mapSelection).
Local Abbreviation selectedRangeEffect := (selectedRangeEffect mapSelection).
Local Abbreviation userTransaction := (userTransaction mapSelection).
Local Abbreviation reachable := (reachable mapSelection).

Lemma applyTransaction_destroyed (tr : Transaction.t) (v : EditorView)
    (update : ViewUpdate) :
  applyTransaction tr v = Some update ->
  destroyed (state update) = destroyed v
  /\ notifiesSelection (state update) = notifiesSelection v.
Proof.
  unfold applyTransaction. intros H.
  destruct (Transaction.changes tr) as [c|].
  - destruct (_ && _ && _)%bool; [|discriminate].
    destruct (Transaction.selection tr) as [sel|].
    + destruct (_ && _)%bool; [|discriminate]. now injection H as <-.
    + now injection H as <-.
  - destruct (Transaction.selection tr) as [sel|].
    + destruct (_ && _)%bool; [|discriminate]. now injection H as <-.
    + now injection H as <-.
Qed.

Lemma dispatch_invariant (vid : nat) (tr : Transaction.t) (st st' : AbcEditor) :
  viewRef st = Some vid -> invariant st -> dispatch vid tr st = Some st' ->
  invariant st' /\ viewRef st' = viewRef st /\ timers st' = timers st.
Proof.
  intros Href [Hflag Hview] H. unfold dispatch in H.
  destruct (nth_error (views st) vid) as [v|] eqn:Hv; [|discriminate].
  destruct (applyTransaction tr v) as [update|] eqn:Hu; [|discriminate].
  injection H as <-. unfold record, setView; simpl. repeat split; auto.
  intros vid' Hvid'. rewrite Href in Hvid'. injection Hvid' as <-.
  exists (state update). split.
  - apply nth_error_setNth. apply nth_error_Some. congruence.
  - destruct (Hview vid Href) as (v' & Hv' & Hd).
    destruct (applyTransaction_destroyed tr v update Hu) as [-> _]. congruence.
Qed.

Lemma currentView_viewRef (st : AbcEditor) (vid : nat) (v : EditorView) :
  currentView st = Some (vid, v) ->
  viewRef st = Some vid /\ nth_error (views st) vid = Some v.
Proof.
  unfold currentView. destruct (viewRef st) as [vid'|]; [|discriminate].
  destruct (nth_error (views st) vid') as [v'|] eqn:E; [|discriminate].
  intros H. injection H as <- <-. auto.
Qed.

Lemma reachable_invariant (st : AbcEditor) : reachable st -> invariant st.
Proof.
  induction 1 as [dom | st value cb _ IH Href | st view _ IH Href
                 | st value st' _ IH Hrun | st range st' _ IH Hrun
                 | st tr st' _ IH Hrun | st _ IH].
  - split; [reflexivity | discriminate].
  - destruct IH as [Hflag Hview]. unfold mountEffect.
    destruct (editorRef st); simpl; [|now split].
    split; [assumption|]. simpl. intros vid Hvid. injection Hvid as <-.
    eexists. rewrite nth_error_app2, Nat.sub_diag by lia. simpl. eauto.
  - destruct IH as [Hflag _]. split; [assumption | discriminate].
  - unfold valueEffect in Hrun.
    destruct (currentView st) as [[vid v]|] eqn:Hcur; [|now injection Hrun as <-].
    destruct (negb _); [|now injection Hrun as <-].
    apply currentView_viewRef in Hcur as [Href _].
    now destruct (dispatch_invariant vid _ st st' Href IH Hrun).
  - unfold selectedRangeEffect in Hrun.
    assert (forall s, invariant s -> invariant (setInternalChange false s)) as Hclear.
    { intros s [_ Hs]. split; [reflexivity | exact Hs]. }
    destruct (currentView st) as [[vid v]|] eqn:Hcur;
      [|injection Hrun as <-; now apply Hclear].
    destruct range as [[from to]|]; [|injection Hrun as <-; now apply Hclear].
    destruct (isInternalChangeRef st); [injection Hrun as <-; now apply Hclear|].
    destruct (_ && _ && _ && _ && _)%bool.
    + destruct (dispatch vid _ st) as [st1|] eqn:Hd; [|discriminate].
      injection Hrun as <-.
      apply currentView_viewRef in Hcur as [Href _].
      destruct (dispatch_invariant vid _ st st1 Href IH Hd) as [[_ Hv] _].
      split; [reflexivity | exact Hv].
    + injection Hrun as <-. destruct IH as [_ Hv].
      split; [reflexivity | exact Hv].
  - unfold userTransaction in Hrun.
    destruct (currentView st) as [[vid v]|] eqn:Hcur; [|discriminate].
    apply currentView_viewRef in Hcur as [Href _].
    now destruct (dispatch_invariant vid _ st st' Href IH Hrun).
  - destruct IH as [Hflag Hview]. unfold runTimer.
    destruct (timers st); split; auto.
Qed.

Lemma setInternalChange_same (st : AbcEditor) :
  isInternalChangeRef st = false -> setInternalChange false st = st.
Proof. destruct st; simpl; intros ->; reflexivity. Qed.

Lemma valid_range_test (from to len : Z) :
  ((from >=? 0) && (to >=? 0) && (from <=? len) && (to <=? len)
   && (from <=? to))%Z = true
  <-> (0 <= from <= to /\ to <= len)%Z.
Proof.
  rewrite !andb_true_iff, !Z.geb_le, !Z.leb_le. lia.
Qed.

Lemma dispatch_live (vid : nat) (tr : Transaction.t) (st : AbcEditor)
    (v : EditorView) (update : ViewUpdate) :
  nth_error (views st) vid = Some v -> destroyed v = false ->
  applyTransaction tr v = Some update ->
  dispatch vid tr st
  = Some (record (dispatched vid tr :: updateListener update)
            (setView vid (state update) st)).
Proof.
  intros Hv Hd Hu. unfold dispatch. now rewrite Hv, Hu, Hd.
Qed.

Lemma currentView_setView (vid : nat) (v v' : EditorView) (st : AbcEditor) :
  currentView st = Some (vid, v) ->
  currentView (setView vid v' st) = Some (vid, v').
Proof.
  intros H. apply currentView_viewRef in H as [Href Hv].
  unfold currentView, setView; simpl. rewrite Href.
  rewrite nth_error_setNth; [reflexivity|].
  apply nth_error_Some. congruence.
Qed.

Lemma reachable_current_live (st : AbcEditor) (vid : nat) (v : EditorView) :
  reachable st -> currentView st = Some (vid, v) ->
  isInternalChangeRef st = false /\ viewRef st = Some vid
  /\ nth_error (views st) vid = Some v /\ destroyed v = false.
Proof.
  intros Hr Hcur. destruct (reachable_invariant st Hr) as [Hflag Hlive].
  apply currentView_viewRef in Hcur as [Href Hv].
  destruct (Hlive vid Href) as (v' & Hv' & Hd).
  repeat split; auto. congruence.
Qed.

Lemma replace_all_update (view : EditorView) (value : jsString) :
  value <> doc view ->
  applyTransaction
    {| Transaction.changes :=
         Some {| from := 0; to := docLength view; insert := value |};
       Transaction.selection := None;
       Transaction.scrollIntoView := None |} view
  = Some {| docChanged := true; selectionSet := false;
            state := {| doc := normalizeLineBreaks value;
                        selection :=
                          mapSelection
                            {| from := 0; to := docLength view;
                               insert := value |} (selection view);
                        destroyed := destroyed view;
                        notifiesSelection := notifiesSelection view |} |}.
Proof.
  intros Hne. unfold applyTransaction.
  cbn [Transaction.changes Transaction.selection from to insert].
  assert ((0 <=? 0)%Z && (0 <=? docLength view)%Z
          && (docLength view <=? docLength view)%Z = true) as ->.
  { rewrite !andb_true_iff, !Z.leb_le. unfold docLength. lia. }
  assert (firstn (Z.to_nat 0) (doc view) ++ normalizeLineBreaks value
            ++ skipn (Z.to_nat (docLength view)) (doc view)
          = normalizeLineBreaks value) as ->.
  { unfold docLength. rewrite Nat2Z.id, skipn_all. simpl. apply app_nil_r. }
  assert (negb ((0 =? docLength view)%Z && isEmpty value) = true) as ->.
  { unfold docLength. destruct (doc view) as [|c d]; simpl.
    - destruct value; [congruence | reflexivity].
    - reflexivity. }
  reflexivity.
Qed.

(** C1, amended.  A valid external selection request is applied to the
    view, scrolls to [from] and schedules the focus; the update listener
    runs for it like for any other transaction, so the host's
    [onSelectionChange], when there is one, is called with the requested
    range: the notification is forwarded, not suppressed.  Every
    selection change the user makes is forwarded in the same way. *)
Theorem C1_external_selection_is_forwarded_like_user_selection
    (st : AbcEditor) (vid : nat) (view : EditorView) (from to : Z) :
  reachable st -> currentView st = Some (vid, view) ->
  (0 <= from <= to /\ to <= docLength view)%Z ->
  (let request :=
     {| Transaction.changes := None;
        Transaction.selection := Some {| anchor := from; head := to |};
        Transaction.scrollIntoView := Some from |} in
   exists st',
     selectedRangeEffect (Some (from, to)) st = Some st'
     /\ log st' = log st ++ dispatched vid request
                    :: (if notifiesSelection view
                        then [onSelectionChange from to] else [])
     /\ currentView st'
        = Some (vid, {| doc := doc view;
                        selection := {| anchor := from; head := to |};
                        destroyed := false;
                        notifiesSelection := notifiesSelection view |})
     /\ timers st' = timers st ++ [vid])
  /\ (forall tr sel update,
        Transaction.selection tr = Some sel ->
        applyTransaction tr view = Some update ->
        exists st',
          userTransaction tr st = Some st'
          /\ log st' = log st ++ dispatched vid tr
               :: (if docChanged update
                   then [onChange (doc (state update))] else [])
               ++ (if notifiesSelection view
                   then [onSelectionChange (rangeFrom sel) (rangeTo sel)]
                   else [])).
Proof.
  intros Hr Hcur Hvalid.
  destruct (reachable_current_live st vid view Hr Hcur)
    as (Hflag & Href & Hv & Hd).
  split.
  - unfold selectedRangeEffect. rewrite Hcur, Hflag.
    destruct (valid_range_test from to (docLength view)) as [_ ->];
      [|assumption].
    erewrite dispatch_live; try eassumption.
    2:{ unfold applyTransaction; simpl.
        unfold rangeFrom, rangeTo, docLength in *; simpl.
        destruct (Z.leb_spec 0 (Z.min from to)); [|lia].
        destruct (Z.leb_spec (Z.max from to) (Z.of_nat (length (doc view))));
          [|lia].
        reflexivity. }
    eexists. split; [reflexivity|]. simpl.
    unfold updateListener, rangeFrom, rangeTo; simpl.
    rewrite Z.min_l, Z.max_r by lia.
    repeat split. rewrite Hd.
    exact (currentView_setView vid view _ st Hcur).
  - intros tr sel update Hsel Hu. unfold userTransaction. rewrite Hcur.
    erewrite dispatch_live; try eassumption.
    eexists. split; [reflexivity|]. simpl. f_equal. f_equal.
    unfold applyTransaction in Hu. rewrite Hsel in Hu.
    destruct (match Transaction.changes tr with Some _ => _ | None => _ end)
      as [[[doc' mapped] changed]|]; [|discriminate].
    destruct (_ && _)%bool; [|discriminate].
    injection Hu as <-. unfold updateListener; simpl. reflexivity.
Qed.

(** C5.  A request with [from > to], a negative bound or a bound beyond
    the length of the document is rejected: a warning with the range and
    the length is logged, nothing is dispatched and no focus is scheduled;
    the views (documents and selections), [viewRef], the flag and the
    pending timers are what they were. *)
Theorem C5_invalid_selection_request_rejected
    (st : AbcEditor) (vid : nat) (view : EditorView) (from to : Z) :
  reachable st -> currentView st = Some (vid, view) ->
  (from > to \/ from < 0 \/ to < 0
   \/ from > docLength view \/ to > docLength view)%Z ->
  exists st',
    selectedRangeEffect (Some (from, to)) st = Some st'
    /\ log st' = log st ++ [warn from to (docLength view)]
    /\ views st' = views st
    /\ viewRef st' = viewRef st
    /\ timers st' = timers st
    /\ isInternalChangeRef st' = isInternalChangeRef st.
Proof.
  intros Hr Hcur Hbad.
  destruct (reachable_current_live st vid view Hr Hcur) as (Hflag & _).
  unfold selectedRangeEffect. rewrite Hcur, Hflag.
  destruct ((from >=? 0) && (to >=? 0) && (from <=? docLength view)
            && (to <=? docLength view) && (from <=? to))%Z eqn:Htest.
  - apply valid_range_test in Htest. lia.
  - eexists. split; [reflexivity|]. simpl. auto.
Qed.

(** C6, amended.  When the new text is the view's text the effect does
    nothing.  Otherwise it dispatches one transaction whose only change
    replaces offsets 0 to the former length by the new text, and the host
    is told of the change; afterwards the view's text is the new text
    with its line breaks normalised (CR LF and CR become LF), which is the
    new text itself when no carriage return occurs in it. *)
Theorem C6_external_content_replaces_whole_buffer
    (st : AbcEditor) (vid : nat) (view : EditorView) (value : jsString) :
  reachable st -> currentView st = Some (vid, view) ->
  (value = doc view -> valueEffect value st = Some st)
  /\ (value <> doc view ->
      let edit :=
        {| Transaction.changes :=
             Some {| from := 0; to := docLength view; insert := value |};
           Transaction.selection := None;
           Transaction.scrollIntoView := None |} in
      exists st' view',
        valueEffect value st = Some st'
        /\ log st' = log st ++ [dispatched vid edit;
                                 onChange (normalizeLineBreaks value)]
        /\ currentView st' = Some (vid, view')
        /\ doc view' = normalizeLineBreaks value
        /\ (~ In CR value -> doc view' = value)).
Proof.
  intros Hr Hcur.
  destruct (reachable_current_live st vid view Hr Hcur)
    as (Hflag & Href & Hv & Hd).
  unfold valueEffect. rewrite Hcur. split.
  - intros ->. destruct (text_eqb_eq (doc view) (doc view)) as [_ ->]; auto.
  - intros Hne. destruct (text_eqb (doc view) value) eqn:Heq.
    { apply text_eqb_eq in Heq. congruence. }
    simpl negb. cbv iota. fold (docLength view).
    rewrite (dispatch_live vid _ st view _ Hv Hd
               (replace_all_update view value Hne)).
    eexists. eexists. split; [reflexivity|].
    unfold record, updateListener; cbn.
    split; [reflexivity|].
    split; [exact (currentView_setView vid view _ st Hcur)|].
    split; [reflexivity|]. simpl. apply normalizeLineBreaks_no_CR.
Qed.

(** C10.  With [selectedRange] null or absent the effect changes nothing:
    no transaction, no timer, no warning, and the component state (views,
    refs, timers, log) is the one before. *)
Theorem C10_null_selectedRange_is_a_no_op (st : AbcEditor) :
  reachable st -> selectedRangeEffect None st = Some st.
Proof.
  intros Hr. destruct (reachable_invariant st Hr) as [Hflag _].
  unfold selectedRangeEffect.
  destruct (currentView st) as [[vid v]|]; simpl;
    now rewrite setInternalChange_same.
Qed.

End EditorProperties.

Lemma cleanup_views (st : AbcEditor) (vid : nat) (v : EditorView) :
  nth_error (views st) vid = Some v ->
  views (cleanup vid st)
  = setNth vid {| doc := doc v; selection := selection v; destroyed := true;
                  notifiesSelection := notifiesSelection v |} (views st).
Proof. intros Hv. unfold cleanup; simpl. now rewrite Hv. Qed.

(** C9, amended.  The cleanup marks the view destroyed and clears
    [viewRef]; it does not touch the pending timers, so a focus callback
    scheduled by an earlier selection request stays scheduled.  Running the
    cleanup a second time changes nothing. *)
Theorem C9_cleanup_keeps_pending_focus_and_is_idempotent
    (st : AbcEditor) (vid : nat) (v : EditorView) :
  nth_error (views st) vid = Some v ->
  timers (cleanup vid st) = timers st
  /\ viewRef (cleanup vid st) = None
  /\ nth_error (views (cleanup vid st)) vid
     = Some {| doc := doc v; selection := selection v; destroyed := true;
               notifiesSelection := notifiesSelection v |}
  /\ log (cleanup vid st) = log st
  /\ cleanup vid (cleanup vid st) = cleanup vid st.
Proof.
  intros Hv.
  assert (vid < length (views st)) as Hlt by (apply nth_error_Some; congruence).
  pose proof (cleanup_views st vid v Hv) as Hviews.
  repeat split; try reflexivity.
  - rewrite Hviews. now apply nth_error_setNth.
  - unfold cleanup at 1. rewrite Hviews.
    rewrite nth_error_setNth by assumption. cbn [doc selection notifiesSelection].
    rewrite setNth_twice, <- Hviews. reflexivity.
Qed.

(* ================================================================== *)
(** * The component on concrete runs *)
(* ================================================================== *)

Lemma mounted_reachable : reachable mapThroughChange mounted.
Proof. apply reach_mount; [apply reach_initial | reflexivity]. Qed.

Lemma mounted_current : currentView mounted = Some (0, mountedView).
Proof. reflexivity. Qed.

(** C1 as stated fails: on a document of length 10 the request for the
    selection 2 to 5 is applied, and the host's [onSelectionChange] is
    called with 2 and 5 for it. *)
Lemma C1_counterexample :
  docLength mountedView = 10%Z
  /\ log mounted = []
  /\ option_map log selected
     = Some [ dispatched 0
                {| Transaction.changes := None;
                   Transaction.selection := Some {| anchor := 2; head := 5 |};
                   Transaction.scrollIntoView := Some 2%Z |};
              onSelectionChange 2 5 ].
Proof. vm_compute. auto. Qed.

Lemma C1_witness :
  exists st',
    selectedRangeEffect mapThroughChange (Some (2, 5)%Z) mounted = Some st'
    /\ log st'
       = [ dispatched 0
             {| Transaction.changes := None;
                Transaction.selection := Some {| anchor := 2; head := 5 |};
                Transaction.scrollIntoView := Some 2%Z |};
           onSelectionChange 2 5 ]
    /\ timers st' = [0].
Proof.
  destruct (C1_external_selection_is_forwarded_like_user_selection
              mapThroughChange mounted 0 mountedView 2 5
              mounted_reachable mounted_current)
    as [(st' & Hrun & Hlog & _ & Htimers) _].
  - vm_compute. intuition discriminate.
  - exists st'. split; [exact Hrun|]. split; [exact Hlog | exact Htimers].
Defined.

Lemma C5_witness :
  (exists st',
     selectedRangeEffect mapThroughChange (Some (5, 2)%Z) mounted = Some st'
     /\ log st' = [warn 5 2 10] /\ views st' = views mounted
     /\ timers st' = [])
  /\ (exists st',
        selectedRangeEffect mapThroughChange (Some (-1, 3)%Z) mounted = Some st'
        /\ log st' = [warn (-1) 3 10] /\ views st' = views mounted
        /\ timers st' = []).
Proof.
  split.
  - destruct (C5_invalid_selection_request_rejected
                mapThroughChange mounted 0 mountedView 5 2
                mounted_reachable mounted_current)
      as (st' & Hrun & Hlog & Hviews & _ & Htimers & _); [lia|].
    exists st'. repeat split; assumption.
  - destruct (C5_invalid_selection_request_rejected
                mapThroughChange mounted 0 mountedView (-1) 3
                mounted_reachable mounted_current)
      as (st' & Hrun & Hlog & Hviews & _ & Htimers & _); [lia|].
    exists st'. repeat split; assumption.
Defined.

(** C6 as stated fails: asked for the text [a], CR, [b] while it holds
    [0123456789], the view ends with [a], LF, [b], which is not the text
    asked for. *)
Lemma C6_counterexample :
  option_map (fun st => option_map (fun current => doc (snd current))
                          (currentView st))
    (valueEffect mapThroughChange (js "a\rb") mounted)
  = Some (Some (js "a\nb"))
  /\ js "a\nb" <> js "a\rb".
Proof. split; [vm_compute; reflexivity | discriminate]. Qed.

Lemma C6_witness :
  valueEffect mapThroughChange (js "0123456789") mounted = Some mounted
  /\ exists st' view',
       valueEffect mapThroughChange (js "CDE|") mounted = Some st'
       /\ log st'
          = [ dispatched 0
                {| Transaction.changes :=
                     Some {| from := 0; to := 10; insert := js "CDE|" |};
                   Transaction.selection := None;
                   Transaction.scrollIntoView := None |};
              onChange (js "CDE|") ]
       /\ currentView st' = Some (0, view')
       /\ doc view' = js "CDE|".
Proof.
  destruct (C6_external_content_replaces_whole_buffer
              mapThroughChange mounted 0 mountedView (js "0123456789")
              mounted_reachable mounted_current) as [Hsame _].
  destruct (C6_external_content_replaces_whole_buffer
              mapThroughChange mounted 0 mountedView (js "CDE|")
              mounted_reachable mounted_current) as [_ Hnew].
  split; [apply Hsame; reflexivity|].
  destruct Hnew as (st' & view' & Hrun & Hlog & Hcur & Hdoc & _);
    [discriminate|].
  exists st', view'. repeat split; assumption.
Defined.

(** C9 as stated fails: after the request for the selection 2 to 5 a
    focus callback is pending; the cleanup destroys the view and clears
    [viewRef] but the callback is still pending, and when it runs it
    calls [focus] on the destroyed view. *)
Lemma C9_counterexample :
  option_map timers selected = Some [0]
  /\ option_map (fun st => timers (cleanup 0 st)) selected = Some [0]
  /\ option_map (fun st => option_map destroyed
                             (nth_error (views (cleanup 0 st)) 0)) selected
     = Some (Some true)
  /\ option_map (fun st => last (log (runTimer (cleanup 0 st))) (focus 1))
       selected
     = Some (focus 0).
Proof. vm_compute. auto. Qed.

Lemma C9_witness :
  timers (cleanup 0 mounted) = timers mounted
  /\ viewRef (cleanup 0 mounted) = None
  /\ cleanup 0 (cleanup 0 mounted) = cleanup 0 mounted.
Proof.
  destruct (C9_cleanup_keeps_pending_focus_and_is_idempotent
              mounted 0 mountedView eq_refl)
    as (Htimers & Href & _ & _ & Htwice).
  repeat split; assumption.
Defined.

Lemma C10_witness :
  selectedRangeEffect mapThroughChange None mounted = Some mounted.
Proof.
  apply (C10_null_selectedRange_is_a_no_op mapThroughChange mounted).
  apply reach_mount; [apply reach_initial | reflexivity].
Defined.

(* ================================================================== *)
(** * More on the tokenizer *)
(* ================================================================== *)

Lemma remaining_peek (s : StringStream) (c : char) (r : jsString) :
  remaining s = c :: r -> peek s = Some c.
Proof.
  unfold remaining, peek. intros H.
  rewrite <- (Nat.add_0_r (pos s)), <- nth_error_skipn, H. reflexivity.
Qed.

Lemma re_K_is_header (l : jsString) (n : nat) :
  re_K l = Some n ->
  re_header l = Some 2 /\ n = 2 /\ exists r, l = ch "K" :: ch ":" :: r.
Proof.
  destruct l as [|c [|d l]]; simpl; try discriminate.
  unfold is_ch. destruct (N.eqb_spec c (ch "K")) as [->|]; [|discriminate].
  destruct (N.eqb_spec d (ch ":")) as [->|]; [|discriminate].
  intros H. injection H as <-. repeat split; eauto.
Qed.

Ltac matched E :=
  unfold stream_match in E;
  match type of E with
  | match ?re ?l with _ => _ end = Some _ =>
      let n := fresh "n" in let Hn := fresh "Hn" in
      destruct (re l) as [n|] eqn:Hn; [injection E as <-|discriminate]
  end.

Lemma token_spec (s : StringStream) (st : State) : tokenBy s st (token s st).
Proof.
  unfold token, eatSpace.
  destruct (prefix_len isSpace (remaining s)) as [|k] eqn:Hsp;
    [|now apply by_space].
  cbn [Nat.ltb Nat.leb].
  destruct (if inHeader st && sol s then stream_match re_header s else None)
    as [s'|] eqn:Hh.
  { destruct (inHeader st) eqn:Hin; [|discriminate].
    destruct (sol s) eqn:Hsol; [|discriminate]. simpl in Hh.
    matched Hh. apply by_header; auto. now apply Nat.eqb_eq. }
  destruct (stream_match re_K s) as [s'|] eqn:HK.
  { matched HK. apply by_K; [|assumption].
    destruct (inHeader st); [|now left].
    destruct (sol s) eqn:Hsol.
    - simpl in Hh. unfold stream_match in Hh.
      destruct (re_K_is_header _ _ Hn) as [Hhd _].
      rewrite Hhd in Hh. discriminate.
    - right. unfold sol in Hsol. apply Nat.eqb_neq in Hsol. lia. }
  destruct (peek s) as [c|] eqn:Hpeek; simpl.
  2:{ repeat match goal with
             | |- context [stream_match ?re s] =>
                 let E := fresh "E" in
                 destruct (stream_match re s) eqn:E;
                 [matched E; constructor; assumption|]
             end.
      now apply by_default. }
  pose proof (peek_remaining s c Hpeek) as Hrem.
  destruct (is_ch "%" c) eqn:Hc.
  { unfold is_ch in Hc. apply N.eqb_eq in Hc. subst c.
    now apply by_comment with (r := skipn (S (pos s)) (str s)). }
  destruct (stream_match re_bar s) eqn:E1; [matched E1; now constructor|].
  destruct (stream_match re_note s) eqn:E2; [matched E2; now constructor|].
  destruct (stream_match re_accidental s) eqn:E3; [matched E3; now constructor|].
  destruct (stream_match re_duration s) eqn:E4; [matched E4; now constructor|].
  destruct (stream_match re_rest s) eqn:E5; [matched E5; now constructor|].
  destruct (N.eqb_spec c dquote) as [->|].
  { now apply by_chord with (r := skipn (S (pos s)) (str s)). }
  destruct (stream_match re_slur s) eqn:E6; [matched E6; now constructor|].
  now apply by_default.
Qed.

Lemma one_state (st st' : State) : inHeader st = inHeader st' -> st = st'.
Proof. destruct st, st'; simpl; now intros ->. Qed.

Lemma token_keeps_cleared (s : StringStream) (st : State) :
  inHeader st = false -> stateOf (token s st) = st.
Proof.
  intros Hin. pose proof (token_spec s st) as H.
  destruct H; try reflexivity. now apply one_state.
Qed.

Lemma remaining_starts_not_space (s : StringStream) (c : char) (r : jsString) :
  remaining s = c :: r -> isSpace c = false ->
  prefix_len isSpace (remaining s) = 0.
Proof. intros -> Hc. simpl. now rewrite Hc. Qed.

Lemma token_clears_inHeader_iff
    (s : StringStream) (st : State) :
  inHeader (stateOf (token s st)) = false
  <-> inHeader st = false
      \/ (0 < pos s /\ exists r, remaining s = ch "K" :: ch ":" :: r).
Proof.
  split.
  - intros Hafter. destruct (inHeader st) eqn:Hin; [right | now left].
    pose proof (token_spec s st) as H.
    remember (token s st) as result eqn:E.
    unfold stateOf in Hafter.
    destruct H; simpl in Hafter; try congruence.
    destruct H as [H|H]; [congruence|]. split; [assumption|].
    now destruct (re_K_is_header _ _ H0) as (_ & _ & Hr).
  - intros [Hin | [Hpos [r Hr]]].
    + now rewrite token_keeps_cleared.
    + unfold token, eatSpace, stream_match. rewrite Hr.
      assert (sol s = false) as -> by (apply Nat.eqb_neq; lia).
      rewrite andb_false_r. reflexivity.
Qed.

Lemma token_state_without_key (s : StringStream) (st : State) :
  ~ (0 < pos s /\ exists r, remaining s = ch "K" :: ch ":" :: r) ->
  stateOf (token s st) = st.
Proof.
  intros Hno. apply one_state.
  destruct (inHeader st) eqn:Hin.
  - destruct (inHeader (stateOf (token s st))) eqn:Hafter; [reflexivity|].
    apply token_clears_inHeader_iff in Hafter.
    destruct Hafter as [H|H]; [congruence | contradiction].
  - rewrite token_keeps_cleared by assumption. assumption.
Qed.

(** X1.  [inHeader] is cleared by a call exactly when it was clear before
    or the stream stands at [K:] beyond the first column: the only rule
    that changes the state is the one for [K:], and at the start of a line
    in the header it is never reached. *)
Theorem X1_inHeader_cleared_iff_key_beyond_start
    (s : StringStream) (st : State) :
  inHeader (stateOf (token s st)) = false
  <-> inHeader st = false
      \/ (0 < pos s /\ exists r, remaining s = ch "K" :: ch ":" :: r).
Proof. apply token_clears_inHeader_iff. Qed.

Lemma parseLoop_states (I : State -> Prop) (text : jsString) :
  (forall s st, str s = text -> I st -> I (stateOf (token s st))) ->
  forall fuel s st steps final,
    str s = text -> I st ->
    parseLoop fuel s st = Some (steps, final) ->
    I final /\ Forall (fun x => I (after x)) steps.
Proof.
  intros Hstep. induction fuel as [|fuel IH]; intros s st steps final Hs Hst;
    rewrite parseLoop_eq; unfold eol;
    destruct (Nat.leb_spec (length (str s)) (pos s)) as [Hend|Hmore];
    intros Hrun; try discriminate;
    try (injection Hrun as <- <-; split; [assumption | constructor]).
  rewrite (readToken_token s st Hmore) in Hrun.
  pose proof (Hstep s st Hs Hst) as Hnext.
  pose proof (token_moved s st Hmore) as [Hstr _].
  unfold stateOf, streamOf in *.
  destruct (token s st) as [[sty s'] st']; simpl in *.
  destruct (MaxLineLength <? pos s).
  { injection Hrun as <- <-. split; [assumption|]. repeat constructor.
    assumption. }
  destruct (parseLoop fuel s' st') as [[steps' final']|] eqn:Hrest;
    [|discriminate].
  injection Hrun as <- <-.
  destruct (IH s' st' steps' final') as [Hfinal Hall]; try congruence.
  split; [assumption|]. constructor; assumption.
Qed.

Lemma hasKey_skipn (p : nat) :
  forall (l r : jsString),
    skipn p l = ch "K" :: ch ":" :: r -> hasKey l = true.
Proof.
  induction p as [|p IH]; intros l r H.
  - simpl in H. subst l. reflexivity.
  - destruct l as [|c l]; [discriminate|]. simpl in H.
    pose proof (IH l r H) as Hl. simpl.
    destruct l as [|d l']; [discriminate|]. rewrite Hl. apply orb_true_r.
Qed.

Lemma keyBeyondStart_skipn (text r : jsString) (p : nat) :
  0 < p -> skipn p text = ch "K" :: ch ":" :: r -> keyBeyondStart text = true.
Proof.
  destruct p as [|p]; [lia|]. intros _ H.
  destruct text as [|c t]; [discriminate|]. simpl in *.
  now apply (hasKey_skipn p t r).
Qed.

Lemma parseLine_state_without_key (line : jsString) (state : State)
    (steps : list Step) (final : State) :
  keyBeyondStart line = false ->
  parseLine line state = Some (steps, final) ->
  final = state /\ Forall (fun x => after x = state) steps.
Proof.
  intros Hno Hrun.
  apply (parseLoop_states (fun st => st = state) line) in Hrun; auto.
  intros s st Hs ->. apply token_state_without_key.
  intros [Hpos [r Hr]]. unfold remaining in Hr. rewrite Hs in Hr.
  rewrite (keyBeyondStart_skipn line r (pos s) Hpos Hr) in Hno. discriminate.
Qed.

Lemma parseLines_state_without_key (ls : list jsString) :
  forall (parsedPos : nat) (state : State) (steps : list Step) (final : State),
    forallb (fun line => negb (keyBeyondStart line)) ls = true ->
    parseLines parsedPos ls state = Some (steps, final) ->
    final = state /\ Forall (fun x => after x = state) steps.
Proof.
  induction ls as [|line rest IH]; intros parsedPos state steps final Hno Hrun.
  - injection Hrun as <- <-. split; [reflexivity | constructor].
  - simpl in Hno, Hrun. apply andb_prop in Hno as [Hline Hrest].
    apply negb_true_iff in Hline.
    destruct (parseLine line state) as [[steps1 state1]|] eqn:H1;
      [|discriminate].
    destruct (parseLines (parsedPos + length line + 1) rest state1)
      as [[steps2 state2]|] eqn:H2; [|discriminate].
    injection Hrun as <- <-.
    destruct (parseLine_state_without_key line state steps1 state1 Hline H1)
      as [-> Hall1].
    destruct (IH _ _ _ _ Hrest H2) as [-> Hall2].
    split; [reflexivity|]. apply Forall_app. split; [|assumption].
    apply Forall_map. eapply Forall_impl; [|exact Hall1]. auto.
Qed.

(** X2.  Once [inHeader] is false it stays false: a scan that starts with
    the flag clear runs to the end with the flag clear after every step. *)
Theorem X2_inHeader_never_set_again (text : jsString) (state : State) :
  inHeader state = false ->
  exists steps final,
    parseLine text state = Some (steps, final)
    /\ inHeader final = false
    /\ Forall (fun x => inHeader (after x) = false) steps.
Proof.
  intros Hin.
  destruct (parseLine_covers text state) as (steps & final & Hrun & _).
  exists steps, final. split; [assumption|].
  apply (parseLoop_states (fun st => inHeader st = false) text) in Hrun; auto.
  intros s st _ Hst. now rewrite token_keeps_cleared.
Qed.

Lemma X2_witness :
  exists steps final,
    parseLine (js "K:C A:B") {| inHeader := false |} = Some (steps, final)
    /\ inHeader final = false.
Proof.
  destruct (X2_inHeader_never_set_again (js "K:C A:B") {| inHeader := false |}
              eq_refl) as (steps & final & Hrun & Hfinal & _).
  exists steps, final. split; assumption.
Defined.

(** X3.  A document in which no line holds [K:] beyond its first column
    is scanned, line by line from the start state, with [inHeader] still
    [true] after every step and at the end: a key field in the first
    column, where tunes have it, does not end the header. *)
Theorem X3_key_in_first_column_never_ends_header (text : jsString) :
  forallb (fun line => negb (keyBeyondStart line)) (lines text) = true ->
  exists steps,
    parseDocument text = Some (steps, startState)
    /\ Forall (fun x => inHeader (after x) = true) steps.
Proof.
  intros Hno.
  destruct (parseLines_total (lines text) 0 startState)
    as (steps & final & Hrun & _).
  destruct (parseLines_state_without_key _ _ _ _ _ Hno Hrun) as [-> Hall].
  exists steps. split; [exact Hrun|].
  eapply Forall_impl; [|exact Hall]. now intros x ->.
Qed.

Lemma X3_witness :
  exists steps,
    parseDocument (js "X:1\nK:G\nK:D\nGABc|") = Some (steps, startState).
Proof.
  destruct (X3_key_in_first_column_never_ends_header
              (js "X:1\nK:G\nK:D\nGABc|") eq_refl) as (steps & Hrun & _).
  now exists steps.
Defined.

Lemma remaining_advance_1 (s : StringStream) (c : char) (r : jsString) :
  remaining s = c :: r ->
  next s = advance 1 s /\ remaining (advance 1 s) = r
  /\ pos s < length (str s).
Proof.
  intros Hr.
  assert (pos s < length (str s)) as Hlt.
  { apply (peek_some_lt s c). now apply remaining_peek with r. }
  repeat split; [| |assumption].
  - unfold next. now destruct (Nat.ltb_spec (pos s) (length (str s))); [|lia].
  - unfold remaining, advance in *; simpl.
    rewrite (Nat.add_comm (pos s) 1), <- skipn_skipn, Hr. reflexivity.
Qed.

Lemma prefix_len_stop (f : char -> bool) (body : jsString) (c : char)
    (rest : jsString) :
  (forall x, In x body -> f x = true) -> f c = false ->
  prefix_len f (body ++ c :: rest) = length body.
Proof.
  intros Hbody Hc. induction body as [|b body IH]; simpl.
  - now rewrite Hc.
  - rewrite (Hbody b) by (now left). f_equal. apply IH.
    intros x Hx. apply Hbody. now right.
Qed.

(** X4.  At a percent sign the call returns [comment] and consumes the
    rest of the stream, whatever the state and wherever in the line. *)
Theorem X4_comment_runs_to_end_of_line
    (s : StringStream) (st : State) (r : jsString) :
  remaining s = ch "%" :: r ->
  token s st = (Some Tag.comment, skipToEnd s, st)
  /\ eol (skipToEnd s) = true.
Proof.
  intros Hr. split.
  - unfold token, eatSpace, stream_match.
    rewrite (remaining_peek s _ r Hr), Hr.
    destruct r; destruct (inHeader st && sol s); reflexivity.
  - unfold eol, skipToEnd; simpl. apply Nat.leb_refl.
Qed.

Lemma X4_witness :
  token {| str := js "AB % tune"; pos := 3 |} startState
  = (Some Tag.comment, {| str := js "AB % tune"; pos := 9 |}, startState).
Proof.
  now destruct (X4_comment_runs_to_end_of_line
                  {| str := js "AB % tune"; pos := 3 |} startState
                  (js " tune") eq_refl) as [H _].
Defined.

(** X5.  At a double quote that is closed later in the stream the call
    returns [string] and consumes the opening quote, the text up to the
    next double quote and that quote, and nothing after it. *)
Theorem X5_closed_chord_ends_after_closing_quote
    (s : StringStream) (st : State) (body rest : jsString) :
  remaining s = dquote :: body ++ dquote :: rest ->
  ~ In dquote body ->
  token s st = (Some Tag.string, advance (length body + 2) s, st)
  /\ remaining (advance (length body + 2) s) = rest.
Proof.
  intros Hr Hbody.
  destruct (remaining_advance_1 s _ _ Hr) as (Hnext & Hrem1 & Hlt).
  assert (remaining (advance (length body + 2) s) = rest) as Hrest.
  { unfold remaining, advance in *; simpl.
    rewrite (Nat.add_comm (pos s)), <- skipn_skipn, Hr.
    replace (length body + 2) with (S (length body + 1)) by lia.
    rewrite skipn_cons, skipn_app, skipn_all2 by lia.
    replace (length body + 1 - length body) with 1 by lia. reflexivity. }
  split; [|assumption].
  rewrite (chord_token s st (remaining_peek s _ _ Hr)), Hnext.
  unfold eatWhile. rewrite Hrem1, prefix_len_stop.
  - assert (pos s + length body + 2 <= length (str s)) as Hle.
    { pose proof (remaining_length s) as Hlen. rewrite Hr in Hlen.
      simpl in Hlen. rewrite length_app in Hlen. simpl in Hlen. lia. }
    unfold next, advance; simpl.
    destruct (Nat.ltb_spec (pos s + 1 + length body) (length (str s)));
      [|lia].
    simpl. do 2 f_equal. f_equal. lia.
  - intros x Hx. destruct (N.eqb_spec x dquote) as [->|]; [contradiction|].
    reflexivity.
  - now rewrite N.eqb_refl.
Qed.

Lemma X5_witness :
  token {| str := dquote :: js "Am" ++ dquote :: js "A2"; pos := 0 |} startState
  = (Some Tag.string,
     {| str := dquote :: js "Am" ++ dquote :: js "A2"; pos := 4 |}, startState).
Proof.
  destruct (X5_closed_chord_ends_after_closing_quote
              {| str := dquote :: js "Am" ++ dquote :: js "A2"; pos := 0 |}
              startState (js "Am") (js "A2") eq_refl) as [H _].
  - vm_compute. intuition discriminate.
  - exact H.
Defined.

(** X6.  Beyond the first column the style returned and the text
    consumed do not depend on the scanner state. *)
Theorem X6_state_only_matters_in_first_column
    (s : StringStream) (st st' : State) :
  0 < pos s ->
  styleOf (token s st) = styleOf (token s st')
  /\ streamOf (token s st) = streamOf (token s st').
Proof.
  intros Hpos. unfold token.
  assert (sol s = false) as -> by (apply Nat.eqb_neq; lia).
  rewrite !andb_false_r.
  destruct (eatSpace s) as [[|] skipped]; [now split|].
  repeat match goal with
         | |- context [match stream_match ?re s with _ => _ end] =>
             destruct (stream_match re s); [now split|]
         | |- context [if ?b then _ else _] => destruct b; [now split|]
         end.
  now split.
Qed.

Lemma X6_witness :
  styleOf (token {| str := js "AT:x"; pos := 1 |} startState)
  = styleOf (token {| str := js "AT:x"; pos := 1 |} {| inHeader := false |}).
Proof.
  destruct (X6_state_only_matters_in_first_column
              {| str := js "AT:x"; pos := 1 |} startState
              {| inHeader := false |}) as [H _]; [simpl; lia | exact H].
Defined.

(** X7.  At the end of the stream a call consumes nothing, returns
    [null] and leaves the state alone; so a call moves the stream exactly
    when the stream is not at its end. *)
Theorem X7_token_moves_iff_not_at_end (s : StringStream) (st : State) :
  (eol s = true -> token s st = (None, s, st))
  /\ (pos s < pos (streamOf (token s st)) <-> pos s < length (str s)).
Proof.
  assert (eol s = true -> token s st = (None, s, st)) as Hend.
  { unfold eol. intros H. apply Nat.leb_le in H.
    assert (remaining s = []) as Hr by (now apply skipn_all2).
    assert (peek s = None) as Hp by (now apply nth_error_None).
    unfold token, eatSpace, stream_match, next. rewrite Hr, Hp.
    destruct (Nat.ltb_spec (pos s) (length (str s))); [lia|].
    destruct (inHeader st && sol s); reflexivity. }
  split; [assumption|]. split.
  - intros Hmoved. destruct (Nat.ltb_spec (pos s) (length (str s))) as [|Hge];
      [assumption|].
    rewrite Hend in Hmoved by (now apply Nat.leb_le).
    unfold streamOf in Hmoved. simpl in Hmoved. lia.
  - intros Hlt. now destruct (token_moved s st Hlt) as [_ [H _]].
Qed.

Lemma X7_witness :
  token {| str := js "AB"; pos := 2 |} startState
  = (None, {| str := js "AB"; pos := 2 |}, startState).
Proof.
  now destruct (X7_token_moves_iff_not_at_end
                  {| str := js "AB"; pos := 2 |} startState) as [H _].
Defined.

Lemma slice_from_pos (s : StringStream) (n : nat) :
  slice (str s) (pos s) (pos s + n) = firstn n (remaining s).
Proof.
  unfold slice, remaining. f_equal. lia.
Qed.

Lemma peek_advance (s : StringStream) (n : nat) :
  peek (advance n s) = nth_error (remaining s) n.
Proof.
  unfold peek, advance, remaining; simpl. now rewrite nth_error_skipn.
Qed.

Lemma forallb_prefix (f : char -> bool) (l : jsString) :
  forallb f (firstn (prefix_len f l) l) = true.
Proof.
  induction l as [|c r IH]; [reflexivity|]. simpl.
  destruct (f c) eqn:Hc; [|reflexivity]. simpl. now rewrite Hc.
Qed.

Lemma prefix_len_stops (f : char -> bool) (l : jsString) (c : char) :
  nth_error l (prefix_len f l) = Some c -> f c = false.
Proof.
  induction l as [|b r IH]; [discriminate|]. simpl.
  destruct (f b) eqn:Hb; simpl; [assumption|].
  intros H. now injection H as <-.
Qed.

Lemma chordBody_prefix (r : jsString) (e : nat) :
  e <= 1 ->
  chordBody
    (firstn (prefix_len (fun c => negb (c =? dquote)%N) r + e) r) = true.
Proof.
  intros He. induction r as [|c r IH]; [now destruct e|].
  cbn [prefix_len]. destruct (negb (c =? dquote)%N) eqn:Hc.
  - cbn [Nat.add firstn]. cbn [chordBody]. rewrite Hc, IH.
    now destruct (firstn _ r).
  - destruct e as [|[|e]]; [reflexivity | reflexivity | lia].
Qed.

Ltac head_of_run H :=
  match type of H with
  | prefix_len ?f ?l = S _ =>
      let c := fresh "c" in let r := fresh "r" in let Hc := fresh "Hc" in
      destruct l as [|c r]; [discriminate|]; cbn [prefix_len] in H;
      destruct (f c) eqn:Hc; [injection H as H|discriminate]
  end.

Lemma token_shaped_and_stops (s : StringStream) (st : State) :
  pos s < length (str s) ->
  let result := token s st in
  let span := slice (str s) (pos s) (pos (streamOf result)) in
  shaped (styleOf result) span = true
  /\ stopsRun (styleOf result) span (peek (streamOf result)) = true.
Proof.
  intros Hlt. pose proof (token_spec s st) as H.
  cbv zeta. remember (token s st) as result eqn:E. clear E.
  unfold styleOf, streamOf.
  destruct H as [s st k Hsp | s st n Hin Hpos Hre | s st n Hwhere Hre
                | s st r Hr | s st n Hre | s st n Hre | s st n Hre
                | s st n Hre | s st n Hre | s st r Hr | s st n Hre
                | s st Hsp]; cbn [fst snd].
  - (* white space *)
    cbn [advance pos str]. rewrite slice_from_pos, peek_advance.
    head_of_run Hsp. subst k. cbn [firstn nth_error]. split.
    + cbn [shaped]. rewrite Hc. apply forallb_prefix.
    + destruct (nth_error r (prefix_len isSpace r)) as [c'|] eqn:Hn;
        [|reflexivity].
      cbn [stopsRun]. now rewrite (prefix_len_stops _ _ _ Hn), andb_false_r.
  - (* header field *)
    cbn [advance pos str]. rewrite slice_from_pos.
    destruct (remaining s) as [|c [|d l]]; try discriminate. simpl in Hre.
    destruct (_ && _) eqn:Hcd; [|discriminate]. injection Hre as <-.
    split; [exact Hcd | now destruct (peek _)].
  - (* K: *)
    cbn [advance pos str]. rewrite slice_from_pos.
    destruct (re_K_is_header _ _ Hre) as (_ & -> & r & ->).
    split; [reflexivity | now destruct (peek _)].
  - (* comment *)
    unfold skipToEnd; cbn [pos str].
    replace (slice (str s) (pos s) (length (str s))) with (remaining s).
    + rewrite Hr. split; [reflexivity | now destruct (peek _)].
    + unfold slice, remaining. symmetry. apply firstn_all2.
      rewrite length_skipn. lia.
  - (* bar *)
    cbn [advance pos str]. rewrite slice_from_pos.
    destruct (remaining s) as [|c l]; [discriminate|]. simpl in Hre.
    destruct (_ || _) eqn:Hc in Hre; [|discriminate]. injection Hre as <-.
    split; [exact Hc | now destruct (peek _)].
  - (* note *)
    cbn [advance pos str]. rewrite slice_from_pos, peek_advance.
    destruct (remaining s) as [|c r]; [discriminate|]. simpl in Hre.
    destruct (_ || _) eqn:Hc in Hre; [|discriminate]. injection Hre as <-.
    cbn [firstn nth_error]. split.
    + cbn [shaped]. rewrite Hc. apply forallb_prefix.
    + destruct (nth_error r (prefix_len isOctave r)) as [c'|] eqn:Hn;
        [|reflexivity].
      cbn [stopsRun]. now rewrite (prefix_len_stops _ _ _ Hn).
  - (* accidental *)
    cbn [advance pos str]. rewrite slice_from_pos.
    destruct (remaining s) as [|c r]; [discriminate|]. simpl in Hre.
    destruct (isAccidental c) eqn:Hc; [|discriminate].
    destruct r as [|d r].
    + injection Hre as <-. split; [exact Hc | now destruct (peek _)].
    + destruct (isAccidental d) eqn:Hd; injection Hre as <-.
      * split; [cbn; now rewrite Hc, Hd | now destruct (peek _)].
      * split; [exact Hc | now destruct (peek _)].
  - (* length *)
    cbn [advance pos str]. rewrite slice_from_pos, peek_advance.
    destruct (remaining s) as [|c r]; [discriminate|].
    unfold re_duration in Hre. destruct (is_ch "/" c) eqn:Hslash.
    + destruct (prefix_len isDigit r) as [|k] eqn:Hk; [discriminate|].
      injection Hre as <-. head_of_run Hk. subst k.
      cbn [firstn nth_error]. split.
      * cbn [shaped isEmpty negb andb forallb].
        now rewrite Hslash, Hc, forallb_prefix.
      * destruct (nth_error r0 (prefix_len isDigit r0)) as [c'|] eqn:Hn;
          [|reflexivity].
        cbn [stopsRun]. now rewrite (prefix_len_stops _ _ _ Hn).
    + destruct (prefix_len isDigit (c :: r)) as [|k] eqn:Hk; [discriminate|].
      injection Hre as <-. cbn [prefix_len] in Hk.
      destruct (isDigit c) eqn:Hc; [injection Hk as Hk|discriminate].
      subst k. cbn [firstn nth_error]. split.
      * cbn [shaped forallb]. now rewrite Hslash, Hc, forallb_prefix.
      * destruct (nth_error r (prefix_len isDigit r)) as [c'|] eqn:Hn;
          [|reflexivity].
        cbn [stopsRun]. now rewrite (prefix_len_stops _ _ _ Hn).
  - (* rest *)
    cbn [advance pos str]. rewrite slice_from_pos.
    destruct (remaining s) as [|c l]; [discriminate|]. simpl in Hre.
    destruct (_ || _) eqn:Hc in Hre; [|discriminate]. injection Hre as <-.
    split; [exact Hc | now destruct (peek _)].
  - (* chord *)
    destruct (remaining_advance_1 s _ _ Hr) as (-> & Hrem1 & _).
    unfold eatWhile. rewrite Hrem1.
    set (k := prefix_len (fun c => negb (c =? dquote)%N) r).
    assert (exists e, e <= 1
              /\ pos (next (advance k (advance 1 s))) = pos s + (1 + (k + e)))
      as (e & He & ->).
    { unfold next, advance; cbn [pos str].
      destruct (_ <? _); cbn [pos]; [exists 1 | exists 0]; split; lia. }
    rewrite slice_from_pos, Hr. cbn [Nat.add firstn]. split.
    + cbn [shaped]. rewrite N.eqb_refl. now apply chordBody_prefix.
    + now destruct (peek _).
  - (* slur *)
    cbn [advance pos str]. rewrite slice_from_pos.
    destruct (remaining s) as [|c l]; [discriminate|]. simpl in Hre.
    destruct (_ || _) eqn:Hc in Hre; [|discriminate]. injection Hre as <-.
    split; [exact Hc | now destruct (peek _)].
  - (* any other character *)
    unfold next. destruct (Nat.ltb_spec (pos s) (length (str s))); [|lia].
    cbn [advance pos str]. rewrite slice_from_pos.
    destruct (remaining s) as [|c r] eqn:Hr.
    { pose proof (remaining_length s) as Hlen. rewrite Hr in Hlen.
      simpl in Hlen. lia. }
    cbn [prefix_len] in Hsp. destruct (isSpace c) eqn:Hc; [discriminate|].
    cbn [firstn shaped]. rewrite Hc. split; [reflexivity|].
    destruct (peek _); cbn [stopsRun]; [now rewrite Hc | reflexivity].
Qed.

(** X8.  The text a call consumes has the form of the style returned
    with it: a letter and a colon for [keyword], one of the bar characters
    for [operator], a note letter with octave marks for [variableName],
    one or two accidental signs for [modifier], digits with an optional
    leading slash for [number], one rest letter for [atom], a double
    quote with no other quote before the last character for [string], one
    slur character for [punctuation], a percent sign first for [comment],
    and for [null] a run of white space or a single other character. *)
Theorem X8_consumed_text_fits_its_style (s : StringStream) (st : State) :
  pos s < length (str s) ->
  shaped (styleOf (token s st))
    (slice (str s) (pos s) (pos (streamOf (token s st)))) = true.
Proof.
  intros Hlt. now destruct (token_shaped_and_stops s st Hlt).
Qed.

Lemma X8_witness :
  shaped (Some Tag.number) (js "/16") = true
  /\ shaped (styleOf (token {| str := js "A/16B"; pos := 1 |} startState))
       (slice (js "A/16B") 1
          (pos (streamOf (token {| str := js "A/16B"; pos := 1 |} startState))))
     = true.
Proof.
  split; [reflexivity|].
  apply (X8_consumed_text_fits_its_style
           {| str := js "A/16B"; pos := 1 |} startState).
  simpl. lia.
Defined.

(** X9.  A step takes the whole run it starts: the character after a note
    is no octave mark, the character after a note length is no digit, and
    the character after skipped white space is no white space. *)
Theorem X9_runs_are_taken_whole (s : StringStream) (st : State) :
  pos s < length (str s) ->
  stopsRun (styleOf (token s st))
    (slice (str s) (pos s) (pos (streamOf (token s st))))
    (peek (streamOf (token s st))) = true.
Proof.
  intros Hlt. now destruct (token_shaped_and_stops s st Hlt).
Qed.

Lemma X9_witness :
  token {| str := js "c''2"; pos := 0 |} startState
  = (Some Tag.variableName, {| str := js "c''2"; pos := 3 |}, startState)
  /\ stopsRun (Some Tag.variableName) (js "c''") (Some (ch "2")) = true.
Proof.
  split; [reflexivity|].
  apply (X9_runs_are_taken_whole {| str := js "c''2"; pos := 0 |} startState).
  simpl. lia.
Defined.

Lemma letter_not_space (c : char) :
  in_range "A" "Z" c || in_range "a" "z" c = true -> isSpace c = false.
Proof.
  unfold in_range, ch. simpl N_of_ascii. intros H.
  assert (65 <= c <= 122)%N as Hc.
  { apply orb_prop in H. destruct H as [H|H];
      apply andb_prop in H as [Ha Hb]; apply N.leb_le in Ha, Hb; lia. }
  unfold isSpace.
  replace (c <=? 13)%N with false by (symmetry; apply N.leb_gt; lia).
  replace (8192 <=? c)%N with false by (symmetry; apply N.leb_gt; lia).
  repeat match goal with
         | |- context [(c =? ?b)%N] =>
             replace (c =? b)%N with false by (symmetry; apply N.eqb_neq; lia)
         end.
  now rewrite andb_false_r.
Qed.

Lemma token_keyword_iff (s : StringStream) (st : State) :
  styleOf (token s st) = Some Tag.keyword
  <-> exists c r,
        remaining s = c :: ch ":" :: r
        /\ ((in_range "A" "Z" c || in_range "a" "z" c = true
             /\ inHeader st = true /\ pos s = 0)
            \/ c = ch "K").
Proof.
  split.
  - intros Hkw. pose proof (token_spec s st) as H.
    remember (token s st) as result eqn:E. unfold styleOf in Hkw.
    destruct H; simpl in Hkw; try discriminate.
    + destruct (remaining s) as [|c [|d l]]; try discriminate.
      simpl in H1. destruct (in_range "A" "Z" c || in_range "a" "z" c) eqn:Hc;
        [|discriminate].
      unfold is_ch in H1. destruct (N.eqb_spec d (ch ":")) as [->|];
        [|discriminate].
      exists c, l. split; [reflexivity|]. left. auto.
    + destruct (re_K_is_header _ _ H0) as (_ & _ & r & Hr).
      exists (ch "K"), r. split; [assumption | now right].
  - intros (c & r & Hr & Hcase).
    assert (in_range "A" "Z" c || in_range "a" "z" c = true) as Hletter.
    { destruct Hcase as [[H _] | ->]; [assumption | reflexivity]. }
    pose proof (letter_not_space c Hletter) as Hsp.
    unfold token, eatSpace, stream_match. rewrite Hr. cbn [prefix_len].
    rewrite Hsp. cbn [Nat.ltb Nat.leb re_header]. rewrite Hletter.
    replace (is_ch ":" (ch ":")) with true by reflexivity. cbn [andb].
    destruct (inHeader st && sol s) eqn:Hfirst; [reflexivity|].
    destruct Hcase as [(_ & Hin & Hpos) | ->]; [|reflexivity].
    unfold sol in Hfirst. rewrite Hin, Hpos in Hfirst. discriminate.
Qed.

(** X11.  A call returns [keyword] exactly when the stream stands at a
    character followed by a colon and either the character is a letter in
    the first column while [inHeader] is true, or it is [K] (anywhere, in
    any state).  So in the header a note or rest letter in the first
    column followed by a colon is a header field, and beyond the first
    column no field but [K:] is one. *)
Theorem X11_header_fields (s : StringStream) (st : State) :
  styleOf (token s st) = Some Tag.keyword
  <-> exists c r,
        remaining s = c :: ch ":" :: r
        /\ ((in_range "A" "Z" c || in_range "a" "z" c = true
             /\ inHeader st = true /\ pos s = 0)
            \/ c = ch "K").
Proof. apply token_keyword_iff. Qed.

(* ================================================================== *)
(** * More on the component *)
(* ================================================================== *)

Lemma map_doc_setNth (vid : nat) (v v' : EditorView) (l : list EditorView) :
  nth_error l vid = Some v -> doc v' = doc v ->
  map doc (setNth vid v' l) = map doc l.
Proof.
  revert vid. induction l as [|y l IH]; intros [|vid] Hv Hdoc; simpl in *;
    try discriminate.
  - injection Hv as ->. now rewrite Hdoc.
  - f_equal. now apply IH.
Qed.

Section MoreEditorProperties.

Variable mapSelection : ChangeSpec -> SelectionRange -> SelectionRange.

Local Abbreviation applyTransaction := (applyTransaction mapSelection).
Local Abbreviation dispatch := (dispatch mapSelection).
Local Abbreviation valueEffect := (valueEffect mapSelection).
Local Abbreviation selectedRangeEffect := (selectedRangeEffect mapSelection).
Local Abbreviation userTransaction := (userTransaction mapSelection).
Local Abbreviation reachable := (reachable mapSelection).

Lemma selectedRangeEffect_valid (st : AbcEditor) (vid : nat)
    (view : EditorView) (from to : Z) :
  isInternalChangeRef st = false ->
  currentView st = Some (vid, view) -> destroyed view = false ->
  (0 <= from <= to /\ to <= docLength view)%Z ->
  selectedRangeEffect (Some (from, to)) st
  = Some (setInternalChange false
            (setTimeout vid
               (record (dispatched vid (selectionRequest from to)
                          :: (if notifiesSelection view
                              then [onSelectionChange from to] else []))
                  (setView vid (withSelection view {| anchor := from; head := to |}) st)))).
Proof.
  intros Hflag Hcur Hd Hvalid.
  destruct (currentView_viewRef st vid view Hcur) as [Href Hv].
  unfold selectedRangeEffect. rewrite Hcur, Hflag.
  destruct (valid_range_test from to (docLength view)) as [_ ->];
    [|assumption].
  erewrite (dispatch_live mapSelection); try eassumption.
  2:{ unfold applyTransaction; simpl.
      unfold rangeFrom, rangeTo, docLength in *; simpl.
      destruct (Z.leb_spec 0 (Z.min from to)); [|lia].
      destruct (Z.leb_spec (Z.max from to) (Z.of_nat (length (doc view))));
        [|lia].
      reflexivity. }
  unfold updateListener, rangeFrom, rangeTo; simpl.
  rewrite Z.min_l, Z.max_r by lia. reflexivity.
Qed.

Lemma valueEffect_changed (st : AbcEditor) (vid : nat) (view : EditorView)
    (value : jsString) :
  currentView st = Some (vid, view) -> destroyed view = false ->
  value <> doc view ->
  valueEffect value st
  = Some (record [dispatched vid (replaceAll view value);
                  onChange (normalizeLineBreaks value)]
            (setView vid
               {| doc := normalizeLineBreaks value;
                  selection :=
                    mapSelection
                      {| from := 0; to := docLength view; insert := value |}
                      (selection view);
                  destroyed := destroyed view;
                  notifiesSelection := notifiesSelection view |} st)).
Proof.
  intros Hcur Hd Hne.
  destruct (currentView_viewRef st vid view Hcur) as [Href Hv].
  unfold valueEffect. rewrite Hcur.
  destruct (text_eqb (doc view) value) eqn:Heq.
  { apply text_eqb_eq in Heq. congruence. }
  simpl negb. cbv iota zeta. fold (docLength view).
  rewrite (dispatch_live mapSelection vid _ st view _ Hv Hd
             (replace_all_update mapSelection view value Hne)).
  reflexivity.
Qed.

(** X12.  In every state a component instance reaches,
    [isInternalChangeRef] is false (nothing sets it, so the guard of the
    selection effect never holds a request back), and [viewRef], when
    set, refers to a view that exists and has not been destroyed. *)
Theorem X12_flag_stays_false_and_viewRef_is_live (st : AbcEditor) :
  reachable st ->
  isInternalChangeRef st = false
  /\ forall vid, viewRef st = Some vid ->
       exists v, currentView st = Some (vid, v) /\ destroyed v = false.
Proof.
  intros Hr. destruct (reachable_invariant mapSelection st Hr) as [Hflag Hlive].
  split; [assumption|]. intros vid Href.
  destruct (Hlive vid Href) as (v & Hv & Hd). exists v.
  split; [|assumption]. unfold currentView. now rewrite Href, Hv.
Qed.

(** X13.  While no view is referred to (before the mount, after the
    cleanup) a content update and a selection request, valid or not, do
    nothing at all: nothing is dispatched, no warning is logged, no focus
    is scheduled. *)
Theorem X13_requests_without_view_are_ignored
    (st : AbcEditor) (value : jsString) (selectedRange : option (Z * Z)) :
  reachable st -> viewRef st = None ->
  valueEffect value st = Some st
  /\ selectedRangeEffect selectedRange st = Some st.
Proof.
  intros Hr Href. destruct (reachable_invariant mapSelection st Hr) as [Hflag _].
  unfold valueEffect, selectedRangeEffect, currentView. rewrite Href.
  split; [reflexivity|]. now rewrite setInternalChange_same.
Qed.

(** X14.  The content echo settles: when a content update has replaced
    the buffer, a further update with the text that was reported to
    [onChange] for it is a no-op. *)
Theorem X14_reported_text_fed_back_is_a_no_op
    (st st' : AbcEditor) (vid : nat) (view : EditorView) (value : jsString) :
  reachable st -> currentView st = Some (vid, view) ->
  value <> doc view -> valueEffect value st = Some st' ->
  log st' = log st ++ [dispatched vid (replaceAll view value);
                           onChange (normalizeLineBreaks value)]
  /\ valueEffect (normalizeLineBreaks value) st' = Some st'.
Proof.
  intros Hr Hcur Hne Hrun.
  destruct (reachable_current_live mapSelection st vid view Hr Hcur)
    as (_ & _ & _ & Hd).
  rewrite (valueEffect_changed st vid view value Hcur Hd Hne) in Hrun.
  injection Hrun as <-. split.
  - reflexivity.
  - unfold valueEffect.
    change (currentView (record ?e (setView vid ?v st)))
      with (currentView (setView vid v st)).
    rewrite (currentView_setView vid view _ st Hcur). cbn [doc].
    now destruct (text_eqb_eq (normalizeLineBreaks value)
                    (normalizeLineBreaks value)) as [_ ->].
Qed.

(** X15.  The selection echo does not settle: a valid request made a
    second time leaves every view as the first left it, but is dispatched
    again, calls [onSelectionChange] again and schedules a further
    focus. *)
Theorem X15_repeated_selection_request_notifies_again
    (st st1 : AbcEditor) (vid : nat) (view : EditorView) (from to : Z) :
  reachable st -> currentView st = Some (vid, view) ->
  (0 <= from <= to /\ to <= docLength view)%Z ->
  selectedRangeEffect (Some (from, to)) st = Some st1 ->
  exists st2,
    selectedRangeEffect (Some (from, to)) st1 = Some st2
    /\ views st2 = views st1
    /\ log st2 = log st1 ++ dispatched vid (selectionRequest from to)
                   :: (if notifiesSelection view
                       then [onSelectionChange from to] else [])
    /\ timers st2 = timers st1 ++ [vid].
Proof.
  intros Hr Hcur Hvalid Hrun.
  destruct (reachable_current_live mapSelection st vid view Hr Hcur)
    as (Hflag & Href & Hv & Hd).
  rewrite (selectedRangeEffect_valid st vid view from to Hflag Hcur Hd Hvalid)
    in Hrun.
  injection Hrun as <-.
  match goal with
  | |- context [selectedRangeEffect _ ?s] => set (s1 := s)
  end.
  assert (currentView s1 = Some (vid, withSelection view {| anchor := from; head := to |})) as Hcur1.
  { exact (currentView_setView vid view _ st Hcur). }
  rewrite (selectedRangeEffect_valid s1 vid (withSelection view {| anchor := from; head := to |}) from to
             eq_refl Hcur1 Hd Hvalid).
  eexists. split; [reflexivity|].
  unfold s1, setInternalChange, setTimeout, record, setView; simpl.
  rewrite setNth_twice. auto.
Qed.

(** X16.  Nothing but its own run removes a pending focus: the mount
    effect, its cleanup, a content update and a transaction of the user
    leave the pending timers as they are, a selection request only adds
    to them, and a timer that runs calls [focus] on the view it holds. *)
Theorem X16_pending_focus_is_never_cancelled (st : AbcEditor) :
  (forall value cb, timers (mountEffect value cb st) = timers st)
  /\ (forall vid, timers (cleanup vid st) = timers st)
  /\ (forall value st', valueEffect value st = Some st' ->
        timers st' = timers st)
  /\ (forall tr st', userTransaction tr st = Some st' ->
        timers st' = timers st)
  /\ (forall selectedRange st',
        selectedRangeEffect selectedRange st = Some st' ->
        exists more, timers st' = timers st ++ more)
  /\ (forall view rest, timers st = view :: rest ->
        timers (runTimer st) = rest
        /\ log (runTimer st) = log st ++ [focus view]).
Proof.
  assert (forall vid tr s s', dispatch vid tr s = Some s' ->
            timers s' = timers s) as Hdispatch.
  { intros vid tr s s' H. unfold dispatch in H.
    destruct (nth_error (views s) vid); [|discriminate].
    destruct (applyTransaction tr e); [|discriminate].
    now injection H as <-. }
  repeat split.
  - intros value cb. unfold mountEffect. now destruct (negb (editorRef st)).
  - intros value st' H. unfold valueEffect in H.
    destruct (currentView st) as [[vid v]|]; [|now injection H as <-].
    destruct (negb _); [|now injection H as <-]. eauto.
  - intros tr st' H. unfold userTransaction in H.
    destruct (currentView st) as [[vid v]|]; [|discriminate]. eauto.
  - intros range st' H. unfold selectedRangeEffect in H.
    destruct (currentView st) as [[vid v]|];
      [|injection H as <-; exists []; simpl; now rewrite app_nil_r].
    destruct range as [[from to]|];
      [|injection H as <-; exists []; simpl; now rewrite app_nil_r].
    destruct (isInternalChangeRef st);
      [injection H as <-; exists []; simpl; now rewrite app_nil_r|].
    destruct (_ && _ && _ && _ && _)%bool.
    + destruct (dispatch vid _ st) as [s1|] eqn:Hd; [|discriminate].
      injection H as <-. exists [vid]. simpl.
      now rewrite (Hdispatch _ _ _ _ Hd).
    + injection H as <-. exists []. simpl. now rewrite app_nil_r.
  - unfold runTimer. now rewrite H.
  - unfold runTimer. now rewrite H.
Qed.

(** X17.  Mounting tells the host nothing.  The content effect that runs
    next with the same value does nothing when the value has no carriage
    return; when normalising the line breaks changes the value, it
    replaces the buffer and reports the normalised text to [onChange],
    although the user has changed nothing. *)
Theorem X17_mount_then_content_effect
    (st : AbcEditor) (value : jsString) (cb : bool) :
  editorRef st = true ->
  let st1 := mountEffect value cb st in
  log st1 = log st
  /\ currentView st1
     = Some (length (views st),
             {| doc := normalizeLineBreaks value;
                selection := {| anchor := 0; head := 0 |};
                destroyed := false; notifiesSelection := cb |})
  /\ (~ In CR value -> valueEffect value st1 = Some st1)
  /\ (normalizeLineBreaks value <> value ->
      exists st2 view1,
        currentView st1 = Some (length (views st), view1)
        /\ valueEffect value st1 = Some st2
        /\ log st2 = log st ++ [dispatched (length (views st))
                                  (replaceAll view1 value);
                                onChange (normalizeLineBreaks value)]).
Proof.
  intros Hdom st1.
  assert (currentView st1
          = Some (length (views st),
                  {| doc := normalizeLineBreaks value;
                     selection := {| anchor := 0; head := 0 |};
                     destroyed := false; notifiesSelection := cb |})) as Hcur.
  { unfold st1, mountEffect, currentView. rewrite Hdom. simpl.
    now rewrite nth_error_app2, Nat.sub_diag by lia. }
  split; [unfold st1, mountEffect; now rewrite Hdom|].
  split; [assumption|]. split.
  - intros Hcr. unfold valueEffect. rewrite Hcur. cbn [doc].
    rewrite (normalizeLineBreaks_no_CR value Hcr).
    now destruct (text_eqb_eq value value) as [_ ->].
  - intros Hne. eexists. eexists. split; [exact Hcur|]. split.
    + apply (valueEffect_changed st1 _ _ value Hcur eq_refl).
      simpl. congruence.
    + unfold st1, mountEffect. rewrite Hdom. reflexivity.
Qed.

(** X18.  A selection request never edits the text: whatever the request
    (valid, invalid or null), the documents of all views are the same
    after the effect, and [onChange] is not called. *)
Theorem X18_selection_request_never_changes_text
    (st st' : AbcEditor) (selectedRange : option (Z * Z)) :
  reachable st -> selectedRangeEffect selectedRange st = Some st' ->
  map doc (views st') = map doc (views st)
  /\ exists events, log st' = log st ++ events /\ Forall notOnChange events.
Proof.
  intros Hr Hrun.
  destruct (reachable_invariant mapSelection st Hr) as [Hflag Hlive].
  assert (Some st' = Some st ->
          map doc (views st') = map doc (views st)
          /\ exists events, log st' = log st ++ events
                            /\ Forall notOnChange events) as Hsame.
  { intros H. injection H as ->. split; [reflexivity|].
    exists []. split; [now rewrite app_nil_r | constructor]. }
  destruct (currentView st) as [[vid view]|] eqn:Hcur.
  2:{ apply Hsame. rewrite <- Hrun. unfold selectedRangeEffect.
      rewrite Hcur. now rewrite setInternalChange_same. }
  destruct selectedRange as [[from to]|].
  2:{ apply Hsame. rewrite <- Hrun. unfold selectedRangeEffect.
      rewrite Hcur. now rewrite setInternalChange_same. }
  destruct (reachable_current_live mapSelection st vid view Hr Hcur)
    as (_ & Href & Hv & Hd).
  destruct ((from >=? 0) && (to >=? 0) && (from <=? docLength view)
            && (to <=? docLength view) && (from <=? to))%Z eqn:Htest.
  - apply valid_range_test in Htest.
    rewrite (selectedRangeEffect_valid st vid view from to Hflag Hcur Hd Htest)
      in Hrun.
    injection Hrun as <-. simpl. split.
    + now apply map_doc_setNth with view.
    + eexists. split; [reflexivity|].
      destruct (notifiesSelection view); repeat constructor.
  - unfold selectedRangeEffect in Hrun. rewrite Hcur, Hflag, Htest in Hrun.
    injection Hrun as <-. simpl. split; [reflexivity|].
    eexists. split; [reflexivity|]. repeat constructor.
Qed.

(** X19.  What the user does to the view reaches the host in full: a
    transaction that changes the document calls [onChange] with the whole
    text the view holds afterwards, and one that sets the selection calls
    [onSelectionChange], when the host gave one, with the lower and the
    upper end of the new selection. *)
Theorem X19_user_changes_are_reported_in_full
    (st : AbcEditor) (vid : nat) (view : EditorView) (tr : Transaction.t)
    (update : ViewUpdate) :
  reachable st -> currentView st = Some (vid, view) ->
  applyTransaction tr view = Some update ->
  exists st' view',
    userTransaction tr st = Some st'
    /\ currentView st' = Some (vid, view')
    /\ log st' = log st ++ dispatched vid tr
         :: (if docChanged update then [onChange (doc view')] else [])
         ++ (if selectionSet update && notifiesSelection view
             then [onSelectionChange (rangeFrom (selection view'))
                     (rangeTo (selection view'))]
             else []).
Proof.
  intros Hr Hcur Hu.
  destruct (reachable_current_live mapSelection st vid view Hr Hcur)
    as (_ & Href & Hv & Hd).
  unfold userTransaction. rewrite Hcur.
  rewrite (dispatch_live mapSelection vid tr st view update Hv Hd Hu).
  exists (record (dispatched vid tr :: updateListener update)
            (setView vid (state update) st)), (state update).
  split; [reflexivity|]. split.
  - exact (currentView_setView vid view _ st Hcur).
  - unfold updateListener; simpl.
    now destruct (applyTransaction_destroyed mapSelection tr view update Hu)
      as [_ ->].
Qed.

End MoreEditorProperties.

(* ================================================================== *)
(** * More concrete runs *)
(* ================================================================== *)

Lemma unmounted_reachable : reachable mapThroughChange (cleanup 0 mounted).
Proof. apply reach_cleanup; [exact mounted_reachable | reflexivity]. Qed.

Lemma X12_witness :
  isInternalChangeRef mounted = false
  /\ exists v, currentView mounted = Some (0, v) /\ destroyed v = false.
Proof.
  destruct (X12_flag_stays_false_and_viewRef_is_live
              mapThroughChange mounted mounted_reachable) as [Hflag Hlive].
  split; [exact Hflag | exact (Hlive 0 eq_refl)].
Defined.

Lemma X13_witness :
  valueEffect mapThroughChange (js "CDE|") (cleanup 0 mounted)
  = Some (cleanup 0 mounted)
  /\ selectedRangeEffect mapThroughChange (Some (5, 2)%Z) (cleanup 0 mounted)
     = Some (cleanup 0 mounted).
Proof.
  apply (X13_requests_without_view_are_ignored mapThroughChange
           (cleanup 0 mounted) (js "CDE|") (Some (5, 2)%Z)
           unmounted_reachable eq_refl).
Defined.

Lemma X14_witness :
  exists st',
    valueEffect mapThroughChange (js "a\r\nb") mounted = Some st'
    /\ valueEffect mapThroughChange (js "a\nb") st' = Some st'.
Proof.
  destruct (valueEffect mapThroughChange (js "a\r\nb") mounted) as [st'|] eqn:Hrun;
    [|vm_compute in Hrun; discriminate Hrun].
  destruct (X14_reported_text_fed_back_is_a_no_op mapThroughChange
              mounted st' 0 mountedView (js "a\r\nb")
              mounted_reachable mounted_current) as [_ Hecho];
    [discriminate | exact Hrun |].
  exists st'. split; [reflexivity | exact Hecho].
Defined.

Lemma X15_witness :
  exists st1 st2,
    selectedRangeEffect mapThroughChange (Some (2, 5)%Z) mounted = Some st1
    /\ selectedRangeEffect mapThroughChange (Some (2, 5)%Z) st1 = Some st2
    /\ views st2 = views st1
    /\ timers st2 = timers st1 ++ [0].
Proof.
  destruct (selectedRangeEffect mapThroughChange (Some (2, 5)%Z) mounted)
    as [st1|] eqn:Hrun; [|vm_compute in Hrun; discriminate Hrun].
  destruct (X15_repeated_selection_request_notifies_again mapThroughChange
              mounted st1 0 mountedView 2 5
              mounted_reachable mounted_current)
    as (st2 & Hrun2 & Hviews & _ & Htimers);
    [vm_compute; intuition discriminate | exact Hrun |].
  exists st1, st2. repeat split; assumption.
Defined.

Lemma X17_witness :
  log (mountEffect (js "CDE|") true (initial true)) = []
  /\ valueEffect mapThroughChange (js "CDE|")
       (mountEffect (js "CDE|") true (initial true))
     = Some (mountEffect (js "CDE|") true (initial true)).
Proof.
  destruct (X17_mount_then_content_effect mapThroughChange
              (initial true) (js "CDE|") true eq_refl)
    as (Hlog & _ & Hsame & _).
  split; [exact Hlog|]. apply Hsame. vm_compute. intuition discriminate.
Defined.

Lemma X18_witness :
  exists st',
    selectedRangeEffect mapThroughChange (Some (2, 5)%Z) mounted = Some st'
    /\ map doc (views st') = [js "0123456789"].
Proof.
  destruct (selectedRangeEffect mapThroughChange (Some (2, 5)%Z) mounted)
    as [st'|] eqn:Hrun; [|vm_compute in Hrun; discriminate Hrun].
  destruct (X18_selection_request_never_changes_text mapThroughChange
              mounted st' (Some (2, 5)%Z) mounted_reachable Hrun)
    as [Hdocs _].
  exists st'. split; [reflexivity | exact Hdocs].
Defined.

(** The user types [A] at the start of the document. *)
Lemma X19_witness :
  let typed :=
    {| Transaction.changes := Some {| from := 0; to := 0; insert := js "A" |};
       Transaction.selection := Some {| anchor := 1; head := 1 |};
       Transaction.scrollIntoView := None |} in
  exists st',
    userTransaction mapThroughChange typed mounted = Some st'
    /\ log st' = [dispatched 0 typed; onChange (js "A0123456789");
                  onSelectionChange 1 1].
Proof.
  intros typed.
  destruct (applyTransaction mapThroughChange typed mountedView)
    as [update|] eqn:Hu; [|vm_compute in Hu; discriminate Hu].
  destruct (X19_user_changes_are_reported_in_full mapThroughChange
              mounted 0 mountedView typed update
              mounted_reachable mounted_current Hu)
    as (st' & view' & Hrun & Hcur & Hlog).
  exists st'. split; [exact Hrun|].
  rewrite Hlog. vm_compute in Hu. injection Hu as <-.
  unfold userTransaction in Hrun. vm_compute in Hrun. injection Hrun as <-.
  vm_compute in Hcur. injection Hcur as <-. reflexivity.
Defined.
